(** * gerrit-monitor: the options page (src/options.js) and its
      configuration constants (config.js)

    A shallow embedding of the [Options] controller of the extension's
    options page, of the regular expressions of the configuration module it
    validates input with, and the properties of the options specification
    that concern them.

    Conventions of the embedding.
    - A JavaScript string is a [string]; its code units are taken in the
      range 0..255.
    - The two arrays owned by the controller are lists; [push] appends at
      the end, an in-place update of element [i] is [alter _ i].
    - A method is a function from the controller's state to a completion
      (normal return or thrown error), the state afterwards and the effects
      issued on the way, in the order the code issues them: writes to the
      page, timers, console lines and calls of the persistence layer.
    - The modules [browser.js], [dombuilder.js] and [gerrit.js] are not part
      of the sources. Their calls are recorded as effects and return
      normally; the settlement of each promise they hand back is a field of
      the [Persistence] record the methods are run against.
    - A promise chain is run to its end at once: nothing else runs between
      the settlement of a promise and its reactions. *)

From Stdlib Require Import Ascii String List Arith Bool Lia.
From stdpp Require Import base list strings pretty.

Local Open Scope string_scope.
Local Open Scope list_scope.
Local Open Scope nat_scope.

(** ** Strings *)

Module JsString.

Definition chars (s : string) : list ascii := String.list_ascii_of_string s.
Definition of_chars (l : list ascii) : string := String.string_of_list_ascii l.

(** [Array.prototype.join] on an array of strings. *)
Fixpoint join (sep : string) (l : list string) : string :=
  match l with
  | [] => ""
  | [x] => x
  | x :: rest => x +:+ sep +:+ join sep rest
  end.

(** The cooked value of the characters of a template literal: a
    backslash followed by one of the single escape characters denotes the
    control character, a backslash followed by any other character
    denotes that character, and the backslash is dropped. (Hexadecimal,
    Unicode and line-continuation escapes do not occur in the sources and
    are not interpreted.) *)
Definition escaped (c : ascii) : ascii :=
  if Ascii.eqb c "n" then "010"
  else if Ascii.eqb c "t" then "009"
  else if Ascii.eqb c "r" then "013"
  else if Ascii.eqb c "b" then "008"
  else if Ascii.eqb c "f" then "012"
  else if Ascii.eqb c "v" then "011"
  else if Ascii.eqb c "0" then "000"
  else c.

Fixpoint cook_chars (raw : list ascii) : list ascii :=
  match raw with
  | [] => []
  | c :: rest =>
      if Ascii.eqb c "\"
      then match rest with
           | [] => []
           | e :: rest' => escaped e :: cook_chars rest'
           end
      else c :: cook_chars rest
  end.

Definition cooked (raw : string) : string := of_chars (cook_chars (chars raw)).

End JsString.

(** ** Regular expressions

    The fragment of the ECMAScript pattern language the configuration
    module uses: literal characters, [.], character classes with ranges
    and negation, identity escapes, capturing groups, alternation, the
    greedy quantifiers [*], [+] and [?], and the assertions [^] and [$];
    flags: [i]. The matcher is the backtracking matcher of the language
    definition, written with continuations. *)

Module RegExp.

Inductive regex : Type :=
| Empty
| Char (c : ascii)
| Dot
| Class (negated : bool) (ranges : list (ascii * ascii))
| Seq (r1 r2 : regex)
| Alt (r1 r2 : regex)
| Star (r : regex)
| Plus (r : regex)
| Opt (r : regex)
| Group (n : nat) (r : regex)
| Bol
| Eol.

(** *** Parsing a pattern *)

Definition is_alnum (c : ascii) : bool :=
  let n := nat_of_ascii c in
  ((48 <=? n) && (n <=? 57)) || ((65 <=? n) && (n <=? 90))
  || ((97 <=? n) && (n <=? 122)).

Definition is_quantifier (c : ascii) : bool :=
  Ascii.eqb c "*" || Ascii.eqb c "+" || Ascii.eqb c "?" || Ascii.eqb c "{".

(** The members of a character class, up to the closing bracket. A
    hyphen between two class atoms makes a range; a hyphen next to a
    bracket stands for itself. *)
Definition parse_class_atom (s : list ascii) : option (ascii * list ascii) :=
  match s with
  | [] => None
  | c :: rest =>
      if Ascii.eqb c "\"
      then match rest with
           | e :: rest' => if is_alnum e then None else Some (e, rest')
           | [] => None
           end
      else Some (c, rest)
  end.

Fixpoint parse_class_ranges (fuel : nat) (s : list ascii)
  : option (list (ascii * ascii) * list ascii) :=
  match fuel with
  | 0 => None
  | S fuel' =>
      match s with
      | [] => None
      | c :: rest =>
          if Ascii.eqb c "]" then Some ([], rest)
          else
            match parse_class_atom s with
            | None => None
            | Some (lo, rest1) =>
                match rest1 with
                | d :: rest2 =>
                    if Ascii.eqb d "-" &&
                       negb (match rest2 with
                             | e :: _ => Ascii.eqb e "]"
                             | [] => true
                             end)
                    then
                      match parse_class_atom rest2 with
                      | None => None
                      | Some (hi, rest3) =>
                          if nat_of_ascii hi <? nat_of_ascii lo then None
                          else
                            match parse_class_ranges fuel' rest3 with
                            | None => None
                            | Some (rs, rest4) => Some ((lo, hi) :: rs, rest4)
                            end
                      end
                    else
                      match parse_class_ranges fuel' rest1 with
                      | None => None
                      | Some (rs, rest4) => Some ((lo, lo) :: rs, rest4)
                      end
                | [] => None
                end
            end
      end
  end.

Definition parse_class (s : list ascii) : option (regex * list ascii) :=
  let '(negated, body) :=
    match s with
    | c :: rest => if Ascii.eqb c "^" then (true, rest) else (false, s)
    | [] => (false, s)
    end in
  match parse_class_ranges (S (length body)) body with
  | None => None
  | Some (rs, rest) => Some (Class negated rs, rest)
  end.

(** A quantifier after an atom; a second quantifier in a row (lazy
    quantifiers and braces included) is outside the fragment. *)
Definition parse_quantifier (atom : regex) (s : list ascii)
  : option (regex * list ascii) :=
  let quantified (q : regex) (rest : list ascii) :=
    match rest with
    | c :: _ => if is_quantifier c then None else Some (q, rest)
    | [] => Some (q, rest)
    end in
  match s with
  | c :: rest =>
      if Ascii.eqb c "*" then quantified (Star atom) rest
      else if Ascii.eqb c "+" then quantified (Plus atom) rest
      else if Ascii.eqb c "?" then quantified (Opt atom) rest
      else if Ascii.eqb c "{" then None
      else Some (atom, s)
  | [] => Some (atom, s)
  end.

(** Disjunction, alternative and term, by recursive descent; [n] is the
    number of capturing groups opened so far (groups are numbered by
    their opening parenthesis, from 1). *)
Fixpoint parse_disjunction (fuel : nat) (s : list ascii) (n : nat)
  : option (regex * list ascii * nat) :=
  match fuel with
  | 0 => None
  | S fuel' =>
      match parse_alternative fuel' s n with
      | None => None
      | Some (r1, rest, n1) =>
          match rest with
          | c :: rest' =>
              if Ascii.eqb c "|"
              then match parse_disjunction fuel' rest' n1 with
                   | None => None
                   | Some (r2, rest2, n2) => Some (Alt r1 r2, rest2, n2)
                   end
              else Some (r1, rest, n1)
          | [] => Some (r1, rest, n1)
          end
      end
  end
with parse_alternative (fuel : nat) (s : list ascii) (n : nat)
  : option (regex * list ascii * nat) :=
  match fuel with
  | 0 => None
  | S fuel' =>
      match s with
      | [] => Some (Empty, s, n)
      | c :: _ =>
          if Ascii.eqb c "|" || Ascii.eqb c ")" then Some (Empty, s, n)
          else
            match parse_term fuel' s n with
            | None => None
            | Some (r1, rest, n1) =>
                match parse_alternative fuel' rest n1 with
                | None => None
                | Some (Empty, rest2, n2) => Some (r1, rest2, n2)
                | Some (r2, rest2, n2) => Some (Seq r1 r2, rest2, n2)
                end
            end
      end
  end
with parse_term (fuel : nat) (s : list ascii) (n : nat)
  : option (regex * list ascii * nat) :=
  match fuel with
  | 0 => None
  | S fuel' =>
      match s with
      | [] => None
      | c :: rest =>
          if Ascii.eqb c "^" then Some (Bol, rest, n)
          else if Ascii.eqb c "$" then Some (Eol, rest, n)
          else if Ascii.eqb c "(" then
            match parse_disjunction fuel' rest (S n) with
            | Some (r, d :: rest1, n1) =>
                if Ascii.eqb d ")"
                then match parse_quantifier (Group (S n) r) rest1 with
                     | None => None
                     | Some (q, rest2) => Some (q, rest2, n1)
                     end
                else None
            | _ => None
            end
          else if Ascii.eqb c "[" then
            match parse_class rest with
            | None => None
            | Some (cl, rest1) =>
                match parse_quantifier cl rest1 with
                | None => None
                | Some (q, rest2) => Some (q, rest2, n)
                end
            end
          else if Ascii.eqb c "\" then
            match rest with
            | e :: rest1 =>
                if is_alnum e then None
                else match parse_quantifier (Char e) rest1 with
                     | None => None
                     | Some (q, rest2) => Some (q, rest2, n)
                     end
            | [] => None
            end
          else if is_quantifier c || Ascii.eqb c ")" || Ascii.eqb c "]"
                  || Ascii.eqb c "}" then None
          else
            match parse_quantifier (if Ascii.eqb c "." then Dot else Char c)
                                   rest with
            | None => None
            | Some (q, rest2) => Some (q, rest2, n)
            end
      end
  end.

Definition parse (pattern : string) : option (regex * nat) :=
  let s := JsString.chars pattern in
  match parse_disjunction (4 * length s + 4) s 0 with
  | Some (r, [], n) => Some (r, n)
  | _ => None
  end.

(** *** Matching *)

(** The value of each capturing group (group [n] at index [n - 1]);
    [None] is [undefined]. *)
Abbreviation captures := (list (option (list ascii))).

Definition set_capture (n : nat) (v : option (list ascii)) (caps : captures)
  : captures := <[pred n := v]> caps.

Definition clear_captures (ns : list nat) (caps : captures) : captures :=
  foldr (fun n c => set_capture n None c) caps ns.

(** The capturing groups inside a pattern. *)
Fixpoint group_ids (r : regex) : list nat :=
  match r with
  | Seq r1 r2 | Alt r1 r2 => group_ids r1 ++ group_ids r2
  | Star r1 | Plus r1 | Opt r1 => group_ids r1
  | Group n r1 => n :: group_ids r1
  | _ => []
  end.

(** Canonicalize, for the [i] flag: the upper-case form of a code unit.
    Only ASCII letters are folded: a code unit from 128 on never
    canonicalizes to one below 128, and the literals and class members of
    the patterns here are all below 128. *)
Definition to_upper (c : ascii) : ascii :=
  let n := nat_of_ascii c in
  if (97 <=? n) && (n <=? 122) then ascii_of_nat (n - 32) else c.

Definition to_lower (c : ascii) : ascii :=
  let n := nat_of_ascii c in
  if (65 <=? n) && (n <=? 90) then ascii_of_nat (n + 32) else c.

Definition char_matches (ignoreCase : bool) (c a : ascii) : bool :=
  if ignoreCase then Ascii.eqb (to_upper c) (to_upper a) else Ascii.eqb c a.

Definition in_ranges (ranges : list (ascii * ascii)) (a : ascii) : bool :=
  existsb (fun '(lo, hi) =>
             (nat_of_ascii lo <=? nat_of_ascii a)
             && (nat_of_ascii a <=? nat_of_ascii hi)) ranges.

(** A character is in a class when some member of the class has the same
    canonical form; for an ASCII letter the candidates are its two
    cases. *)
Definition class_matches (ignoreCase : bool) (ranges : list (ascii * ascii))
           (a : ascii) : bool :=
  in_ranges ranges a
  || (ignoreCase && (in_ranges ranges (to_upper a)
                     || in_ranges ranges (to_lower a))).

(** [.] matches any character but a line terminator. *)
Definition is_line_terminator (a : ascii) : bool :=
  Ascii.eqb a "010" || Ascii.eqb a "013".

Section Matcher.

Context {R : Type}.
Variable ignoreCase : bool.
(** The length of the whole input; the matcher state is the part of the
    input that is still to be read, so the current position is
    [input_length - length s]. *)
Variable input_length : nat.

Definition continuation : Type := list ascii -> captures -> option R.

(** The iterations of a greedy quantifier without upper bound, once its
    lower bound is met: clear the captures of the groups inside, try
    one more iteration, which has to read at least one character, and
    fall back to the continuation. Each iteration shortens the rest of
    the input, so [fuel] above its length is never used up. *)
Fixpoint repeat_matcher
         (m : list ascii -> captures -> continuation -> option R)
         (inner : list nat) (fuel : nat)
         (s : list ascii) (caps : captures) (k : continuation)
  : option R :=
  match fuel with
  | 0 => None
  | S fuel' =>
      match m s (clear_captures inner caps)
              (fun s' caps' =>
                 if length s' =? length s then None
                 else repeat_matcher m inner fuel' s' caps' k) with
      | Some z => Some z
      | None => k s caps
      end
  end.

Fixpoint matcher (r : regex) (s : list ascii) (caps : captures)
         (k : continuation) {struct r} : option R :=
  match r with
  | Empty => k s caps
  | Char c =>
      match s with
      | a :: s' => if char_matches ignoreCase c a then k s' caps else None
      | [] => None
      end
  | Dot =>
      match s with
      | a :: s' => if is_line_terminator a then None else k s' caps
      | [] => None
      end
  | Class negated ranges =>
      match s with
      | a :: s' =>
          if xorb negated (class_matches ignoreCase ranges a)
          then k s' caps else None
      | [] => None
      end
  | Seq r1 r2 =>
      matcher r1 s caps (fun s' caps' => matcher r2 s' caps' k)
  | Alt r1 r2 =>
      match matcher r1 s caps k with
      | Some z => Some z
      | None => matcher r2 s caps k
      end
  | Star r1 =>
      repeat_matcher (matcher r1) (group_ids r1) (S (length s)) s caps k
  | Plus r1 =>
      matcher r1 s (clear_captures (group_ids r1) caps)
              (fun s' caps' =>
                 repeat_matcher (matcher r1) (group_ids r1)
                                (S (length s')) s' caps' k)
  | Opt r1 =>
      match matcher r1 s (clear_captures (group_ids r1) caps)
                    (fun s' caps' =>
                       if length s' =? length s then None
                       else k s' caps') with
      | Some z => Some z
      | None => k s caps
      end
  | Group n r1 =>
      matcher r1 s caps
              (fun s' caps' =>
                 k s' (set_capture n
                         (Some (take (length s - length s') s)) caps'))
  | Bol => if length s =? input_length then k s caps else None
  | Eol => match s with [] => k s caps | _ :: _ => None end
  end.

End Matcher.

(** *** RegExp objects and [exec] *)

Record t : Type := {
  source : regex;
  group_count : nat;
  ignoreCase : bool
}.

(** [new RegExp(pattern, flags)]; [None] is a SyntaxError or a pattern or
    flag outside the fragment. *)
Definition new (pattern flags : string) : option t :=
  match parse pattern with
  | None => None
  | Some (r, n) =>
      if String.eqb flags "" then
        Some {| source := r; group_count := n; ignoreCase := false |}
      else if String.eqb flags "i" then
        Some {| source := r; group_count := n; ignoreCase := true |}
      else None
  end.

(** The array [exec] returns: [matched] is element 0, [groups] are the
    elements from 1 on. *)
Record match_result : Type := {
  index : nat;
  matched : string;
  groups : list (option string)
}.

(** Try the pattern at the current position, then at each later one (the
    expression is neither global nor sticky, so the search starts at 0). *)
Fixpoint exec_from (re : t) (input_length : nat) (s : list ascii)
  : option match_result :=
  match matcher (ignoreCase re) input_length (source re) s
                (replicate (group_count re) None)
                (fun s' caps' => Some (s', caps')) with
  | Some (s', caps') =>
      Some {| index := input_length - length s;
              matched := JsString.of_chars (take (length s - length s') s);
              groups := map (option_map JsString.of_chars) caps' |}
  | None =>
      match s with
      | [] => None
      | _ :: s' => exec_from re input_length s'
      end
  end.

(** [re.exec(input)]; [None] is [null]. *)
Definition exec (re : t) (input : string) : option match_result :=
  let s := JsString.chars input in
  exec_from re (length s) s.

(** [match[n]] for [n] from 1 on; [None] is [undefined]. *)
Definition group (m : match_result) (n : nat) : option string :=
  match groups m !! pred n with
  | Some v => v
  | None => None
  end.

End RegExp.

(** ** Values shared by the modules *)

(** The value of an option that type-checks only when the option is
    [Some]: a constant built by a constructor that can fail exists only if
    the construction succeeds. *)
Definition the {A : Type} (o : option A)
  : match o with Some _ => A | None => unit end :=
  match o with
  | Some a => a
  | None => tt
  end.

(** A thrown value or rejection reason. [Reason text] is a value that is
    not an Error object, known by its string form. *)
Inductive error : Type :=
| TypeError (message : string)
| Error (message : string)
| Reason (text : string).

(** [String(error)]. *)
Definition String_ (e : error) : string :=
  match e with
  | TypeError message =>
      if String.eqb message "" then "TypeError" else "TypeError: " +:+ message
  | Error message =>
      if String.eqb message "" then "Error" else "Error: " +:+ message
  | Reason text => text
  end.

(** One monitored Gerrit instance. *)
Module GerritInstance.
Record t : Type := {
  host : string;
  name : string;
  enabled : bool
}.
End GerritInstance.

(** The options as they are stored: [{ instances: ..., groupNames: ... }]. *)
Module OptionsDocument.
Record t : Type := {
  instances : list GerritInstance.t;
  groupNames : list string
}.
End OptionsDocument.

(** ** config.js *)

Module config.

Definition ORIGIN_PATTERN : string := "(https?://[^/]*)(/[^/]+)*".
Definition ORIGIN_REGEXP : RegExp.t :=
  the (RegExp.new ("^" +:+ ORIGIN_PATTERN) "").

Definition WORD_CHS : string := "[a-zA-Z0-9_-]+".
(** A template literal: the substitutions are spliced between the cooked
    values of the literal's own characters. *)
Definition GROUP_NAME_PATTERN : string :=
  WORD_CHS +:+ JsString.cooked "@*" +:+ WORD_CHS +:+ JsString.cooked "\.*"
  +:+ WORD_CHS.
Definition GROUP_NAME_REGEXP : RegExp.t :=
  the (RegExp.new (JsString.cooked "^" +:+ GROUP_NAME_PATTERN
                   +:+ JsString.cooked "$") "i").

Definition LOGIN_PROMPT : string := " Try logging in.".
Definition NO_HOST_ALLOWED : string := "No host configured.".
Definition REFRESH_DELAY_IN_MINUTES : nat := 5.

Definition DEFAULT_OPTIONS : OptionsDocument.t :=
  {| OptionsDocument.instances :=
       [ {| GerritInstance.name := "Chromium";
            GerritInstance.host := "https://chromium-review.googlesource.com";
            GerritInstance.enabled := false |};
         {| GerritInstance.name := "Fuchsia";
            GerritInstance.host := "https://fuchsia-review.googlesource.com";
            GerritInstance.enabled := false |} ];
     OptionsDocument.groupNames := [] |}.

End config.

(** The group-name pattern as the options specification writes it, with an
    escaped (literal) dot, matched case-insensitively; for comparison with
    [config.GROUP_NAME_REGEXP]. *)
Definition spec_GROUP_NAME_REGEXP : RegExp.t :=
  the (RegExp.new "^[a-zA-Z0-9_-]+@*[a-zA-Z0-9_-]+\.*[a-zA-Z0-9_-]+$" "i").

(** ** The world around the options page *)

(** A function the page hands to the browser, to be called back later. *)
Inductive callback : Type :=
| clear_status                        (* the timer of [setStatusText] *)
| checkbox_change (instance_index : nat)
| add_group_click
| add_instance_click
| save_instance_click
| save_group_name_click.

(** What a method does to the world, in the order it does it. *)
Inductive effect : Type :=
| SetInnerText (id text : string)
| SetChecked (id value : string)
| SetValue (id value : string)
| SetPattern (id pattern : string)
| SetTimeout (handler : callback) (delay : nat)
| AddEventListener (id type : string) (listener : callback)
| AppendInstanceRow (name host checkbox_id : string) (checked : bool)
| SetLabelFor (label_text for_id : string)
| AppendGroupNameItem (groupName : string)
| ConsoleLog (line : string)
| CallFetchOptions
| CallSetAllowedOrigins (origins : list string)
| CallSaveOptions (options : OptionsDocument.t).

(** How a promise ends. *)
Inductive settled (A : Type) : Type :=
| Resolved (value : A)
| Rejected (reason : error).
Arguments Resolved {A} value.
Arguments Rejected {A} reason.

(** Modelled from the spec: the persistence contract of [gerrit.js] and
    [browser.js], which are not among the sources: [fetchOptions()] is a
    promise of an options document, [setAllowedOrigins(origins)] and
    [saveOptions(doc)] are promises of nothing. The record says how each of
    them settles. *)
Record Persistence : Type := {
  fetchOptions_settles : settled OptionsDocument.t;
  setAllowedOrigins_settles : list string -> settled unit;
  saveOptions_settles : OptionsDocument.t -> settled unit
}.

(** How a call ends. *)
Inductive completion (A : Type) : Type :=
| Normal (value : A)
| Throw (e : error).
Arguments Normal {A} value.
Arguments Throw {A} e.

(** What [this] is bound to inside a function body. The page has one
    [Options] object; a plain function called without a receiver, as
    [forEach] calls its callback when it is given no [thisArg], has [this]
    undefined (module and class code is strict). *)
Inductive this_binding : Type :=
| this_undefined
| this_Options.

(** ** options.js *)

Module Options.

(** The fields of the [Options] object. *)
Record t : Type := {
  instances_ : list GerritInstance.t;
  groupNames_ : list string
}.

Definition constructor : t := {| instances_ := []; groupNames_ := [] |}.

(** *** Methods as state-passing computations *)

Definition M (A : Type) : Type := t -> completion A * t * list effect.

Definition ret {A : Type} (a : A) : M A := fun this => (Normal a, this, []).

Definition bind {A B : Type} (c : M A) (f : A -> M B) : M B :=
  fun this =>
    match c this with
    | (Normal a, this', effects) =>
        let '(b, this'', effects') := f a this' in
        (b, this'', effects ++ effects')
    | (Throw e, this', effects) => (Throw e, this', effects)
    end.

Definition throw {A : Type} (e : error) : M A :=
  fun this => (Throw e, this, []).

Definition emit (e : effect) : M unit := fun this => (Normal tt, this, [e]).

Definition get : M t := fun this => (Normal this, this, []).

Definition modify (f : t -> t) : M unit := fun this => (Normal tt, f this, []).

Notation "x <- c1 ;; c2" := (bind c1 (fun x => c2))
  (at level 100, c1 at next level, right associativity).
Notation "c1 ;; c2" := (bind c1 (fun _ => c2))
  (at level 100, right associativity).

(** The state and the effects of a run. *)
Definition state_after {A : Type} (c : M A) (this : t) : t := snd (fst (c this)).
Definition effects_of {A : Type} (c : M A) (this : t) : list effect := snd (c this).
Definition completion_of {A : Type} (c : M A) (this : t) : completion A :=
  fst (fst (c this)).

(** A method looked up on [this]. *)
Definition on {A : Type} (this : this_binding) (method_name : string)
           (method : M A) : M A :=
  match this with
  | this_Options => method
  | this_undefined =>
      throw (TypeError ("Cannot read properties of undefined (reading '"
                        +:+ method_name +:+ "')"))
  end.

(** [array.forEach(callback, thisArg)]. *)
Fixpoint forEach {A : Type} (array : list A)
         (callback : this_binding -> A -> M unit) (thisArg : this_binding)
  : M unit :=
  match array with
  | [] => ret tt
  | x :: rest => callback thisArg x ;; forEach rest callback thisArg
  end.

(** [callback.bind(this)], inside a method of the [Options] object. *)
Definition bind_this {A B : Type} (callback : this_binding -> A -> M B)
  : this_binding -> A -> M B :=
  fun _ => callback this_Options.

(** *** Promises *)

(** An asynchronous computation, run up to its settlement. *)
Definition Promise (A : Type) : Type := M (settled A).

(** [promise.then(onFulfilled)], where [onFulfilled] returns a plain
    value: a throw in the reaction rejects the new promise. *)
Definition then_ {A B : Type} (promise : Promise A) (onFulfilled : A -> M B)
  : Promise B :=
  fun this =>
    match promise this with
    | (Normal (Resolved a), this', effects) =>
        match onFulfilled a this' with
        | (Normal b, this'', effects') =>
            (Normal (Resolved b), this'', effects ++ effects')
        | (Throw e, this'', effects') =>
            (Normal (Rejected e), this'', effects ++ effects')
        end
    | (Normal (Rejected e), this', effects) =>
        (Normal (Rejected e), this', effects)
    | (Throw e, this', effects) => (Throw e, this', effects)
    end.

(** [promise.then(onFulfilled)], where [onFulfilled] returns a promise,
    which the new promise follows. *)
Definition then_promise {A B : Type} (promise : Promise A)
           (onFulfilled : A -> Promise B) : Promise B :=
  fun this =>
    match promise this with
    | (Normal (Resolved a), this', effects) =>
        match onFulfilled a this' with
        | (Normal b, this'', effects') => (Normal b, this'', effects ++ effects')
        | (Throw e, this'', effects') =>
            (Normal (Rejected e), this'', effects ++ effects')
        end
    | (Normal (Rejected e), this', effects) =>
        (Normal (Rejected e), this', effects)
    | (Throw e, this', effects) => (Throw e, this', effects)
    end.

(** [promise.catch(onRejected)]. *)
Definition catch_ {A : Type} (promise : Promise A) (onRejected : error -> M A)
  : Promise A :=
  fun this =>
    match promise this with
    | (Normal (Rejected e), this', effects) =>
        match onRejected e this' with
        | (Normal a, this'', effects') =>
            (Normal (Resolved a), this'', effects ++ effects')
        | (Throw e', this'', effects') =>
            (Normal (Rejected e'), this'', effects ++ effects')
        end
    | other => other
    end.

(** *** The collaborators *)

Section Collaborators.

Variable env : Persistence.

Definition gerrit_fetchOptions : Promise OptionsDocument.t :=
  emit CallFetchOptions ;; ret (fetchOptions_settles env).

Definition browser_setAllowedOrigins (origins : list string) : Promise unit :=
  emit (CallSetAllowedOrigins origins) ;;
  ret (setAllowedOrigins_settles env origins).

Definition browser_saveOptions (options : OptionsDocument.t) : Promise unit :=
  emit (CallSaveOptions options) ;; ret (saveOptions_settles env options).

End Collaborators.

(** *** The methods of the class *)

(** [value + suffix] for a value that is a string or [undefined]. *)
Definition concat_value (value : option string) (suffix : string) : string :=
  match value with
  | Some text => text +:+ suffix
  | None => "undefined" +:+ suffix
  end.

Definition push_instance (instance : GerritInstance.t) (this : t) : t :=
  {| instances_ := instances_ this ++ [instance];
     groupNames_ := groupNames_ this |}.

Definition push_groupName (groupName : string) (this : t) : t :=
  {| instances_ := instances_ this;
     groupNames_ := groupNames_ this ++ [groupName] |}.

(** An assignment to fields of the instance object at one index of
    [instances_]. *)
Definition update_instance (i : nat) (f : GerritInstance.t -> GerritInstance.t)
           (this : t) : t :=
  {| instances_ := alter f i (instances_ this);
     groupNames_ := groupNames_ this |}.

Section Methods.

Variable env : Persistence.

Definition instances (this : t) : list GerritInstance.t := instances_ this.

Definition groupNames (this : t) : list string := groupNames_ this.

(** [opt_timeout || 750]: an absent or zero timeout gives 750. *)
Definition setStatusText (text : string) (opt_timeout : option nat) : M unit :=
  emit (SetInnerText "status" text) ;;
  emit (SetTimeout clear_status
          (match opt_timeout with
           | Some (S n) => S n
           | _ => 750
           end)).

(** The timer's function. *)
Definition on_clear_status : M unit := emit (SetInnerText "status" "").

Definition addGerritInstance (host name : string) (enabled : bool) : M unit :=
  this <- get ;;
  match list_find (fun instance => GerritInstance.host instance = host)
                  (instances_ this) with
  | Some (i, _) =>
      modify (update_instance i
                (fun instance =>
                   {| GerritInstance.host := GerritInstance.host instance;
                      GerritInstance.name := name;
                      GerritInstance.enabled := true |})) ;;
      emit (SetChecked ("instance-" +:+ pretty i) "true")
  | None =>
      modify (push_instance {| GerritInstance.host := host;
                               GerritInstance.name := name;
                               GerritInstance.enabled := enabled |}) ;;
      this' <- get ;;
      let instance_index := length (instances_ this') - 1 in
      emit (AppendInstanceRow name host
              ("instance-" +:+ pretty instance_index) enabled) ;;
      emit (AddEventListener ("instance-" +:+ pretty instance_index)
              "change" (checkbox_change instance_index)) ;;
      emit (SetLabelFor name ("instance-" +:+ pretty instance_index)) ;;
      emit (SetLabelFor host ("instance-" +:+ pretty instance_index))
  end.

(** The change listener of the checkbox of row [instance_index]. It
    holds the instance object itself, which stays at that index of
    [instances_]: elements are never removed or reordered. [checked] is
    the state of the checkbox when the event fires. (There is a listener
    only for the rows that exist; for another index nothing changes.) *)
Definition on_checkbox_change (instance_index : nat) (checked : bool) : M unit :=
  modify (update_instance instance_index
            (fun instance =>
               {| GerritInstance.host := GerritInstance.host instance;
                  GerritInstance.name := GerritInstance.name instance;
                  GerritInstance.enabled := checked |})).

(** The callback of the scan is a plain function, not bound and called
    by [forEach] without [thisArg]; its [return] leaves the callback. *)
Definition addGroupName (groupName : string) : M unit :=
  this <- get ;;
  forEach (groupNames_ this)
          (fun this_ name =>
             if String.eqb name groupName
             then on this_ "setStatusText"
                     (setStatusText "Already have this group name" None)
             else ret tt)
          this_undefined ;;
  modify (push_groupName groupName) ;;
  emit (AppendGroupNameItem groupName).

Definition applyInstanceOptions (instances : list GerritInstance.t) : M unit :=
  forEach instances
          (bind_this
             (fun this_ instance =>
                on this_ "addGerritInstance"
                   (addGerritInstance (GerritInstance.host instance)
                                      (GerritInstance.name instance)
                                      (GerritInstance.enabled instance))))
          this_undefined.

Definition applyGroupNameOptions (groupNames : list string) : M unit :=
  forEach groupNames
          (bind_this
             (fun this_ groupName =>
                on this_ "addGroupName" (addGroupName groupName)))
          this_undefined.

(** The reaction of [loadOptions] to the fetched options: a function bound
    to the [Options] object, which the promise calls without receiver. *)
Definition loadOptions_fulfilled (options : OptionsDocument.t) : M unit :=
  bind_this
    (fun this_ options =>
       on this_ "applyInstanceOptions"
          (applyInstanceOptions (OptionsDocument.instances options)) ;;
       on this_ "applyGroupNameOptions"
          (applyGroupNameOptions (OptionsDocument.groupNames options)))
    this_undefined options.

Definition loadOptions : Promise unit :=
  then_ (gerrit_fetchOptions env) loadOptions_fulfilled.

(** The local array [origins] after the scan of the instances. *)
Definition allowed_origins (instances : list GerritInstance.t) : list string :=
  foldl (fun origins instance =>
           if GerritInstance.enabled instance then
             match RegExp.exec config.ORIGIN_REGEXP
                               (GerritInstance.host instance) with
             | Some match_ =>
                 origins ++ [concat_value (RegExp.group match_ 1) "/*"]
             | None => origins
             end
           else origins)
        [] instances.

(** The object [options] holds the two arrays themselves, not copies:
    what reaches [saveOptions] is their content at the time of the
    call. *)
Definition current_options : M OptionsDocument.t :=
  this <- get ;;
  ret {| OptionsDocument.instances := instances_ this;
         OptionsDocument.groupNames := groupNames_ this |}.

Definition saveInstanceOptions : Promise unit :=
  this <- get ;;
  emit (ConsoleLog ("groupNames: " +:+ JsString.join "," (groupNames_ this))) ;;
  let origins := allowed_origins (instances_ this) in
  catch_
    (then_
       (then_promise
          (browser_setAllowedOrigins env origins)
          (fun _ => options <- current_options ;;
                    browser_saveOptions env options))
       (bind_this
          (fun this_ _ =>
             on this_ "setStatusText" (setStatusText "Options saved." None))
          this_undefined))
    (bind_this
       (fun this_ error =>
          on this_ "setStatusText" (setStatusText (String_ error) None))
       this_undefined).

(** The local arrays [groups] and [invalidGroups] after the scan of the
    group names. *)
Definition partition_groupNames (groupNames : list string)
  : list string * list string :=
  foldl (fun '(groups, invalidGroups) groupName =>
           match RegExp.exec config.GROUP_NAME_REGEXP groupName with
           | Some _ => (groups ++ [groupName], invalidGroups)
           | None => (groups, invalidGroups ++ [groupName])
           end)
        ([], []) groupNames.

(** The promise chain of the last branch is started and not returned. *)
Definition saveGroupNameOptions : M unit :=
  emit (ConsoleLog "calling saveGroupNameOptions") ;;
  this <- get ;;
  let '(groups, invalidGroups) := partition_groupNames (groupNames_ this) in
  if 0 <? length invalidGroups then
    setStatusText ("Invalid group names: " +:+ JsString.join ", " invalidGroups)
                  None
  else if length groups =? 0 then
    setStatusText "Nothing to save" None
  else
    emit (ConsoleLog "saveOptions: [object Object]") ;;
    _ <- catch_
           (then_
              (options <- current_options ;; browser_saveOptions env options)
              (bind_this
                 (fun this_ _ =>
                    on this_ "setStatusText"
                       (setStatusText "Options saved." None))
                 this_undefined))
           (bind_this
              (fun this_ error =>
                 on this_ "setStatusText"
                    (setStatusText (String_ error) None))
              this_undefined) ;;
    ret tt.

(** [handleInstanceAdd] wires the group-name form. *)
Definition handleInstanceAdd : M unit :=
  emit (SetPattern "add-group-name" config.GROUP_NAME_PATTERN) ;;
  emit (AddEventListener "add-group-button" "click" add_group_click).

(** Its click listener (bound to the [Options] object); [value] is the
    content of the field [add-group-name] at the click. *)
Definition on_add_group_click (value : string) : M unit :=
  let name := value in
  match RegExp.exec config.GROUP_NAME_REGEXP name with
  | Some _ =>
      addGroupName name ;;
      emit (SetValue "add-group-name" "")
  | None => setStatusText "Incorrect group name values." None
  end.

(** [handleGroupNameAdd] wires the instance form. *)
Definition handleGroupNameAdd : M unit :=
  emit (SetPattern "add-button-name" ".+") ;;
  emit (SetPattern "add-button-host" config.ORIGIN_PATTERN) ;;
  emit (AddEventListener "add-button" "click" add_instance_click).

(** Its click listener; [host_value] and [name_value] are the contents
    of the fields [add-button-host] and [add-button-name]. *)
Definition on_add_instance_click (host_value name_value : string) : M unit :=
  let host := host_value in
  let name := name_value in
  let host_is_valid :=
    match RegExp.exec config.ORIGIN_REGEXP host with
    | Some match_ =>
        String.length (RegExp.matched match_) =? String.length host
    | None => false
    end in
  if host_is_valid && negb (String.length name =? 0) then
    addGerritInstance host name true ;;
    emit (SetValue "add-button-host" "") ;;
    emit (SetValue "add-button-name" "")
  else setStatusText "Incorrect instance values." None.

(** The listeners of the two save buttons. *)
Definition on_save_instance_click : M unit :=
  emit (ConsoleLog "save instance") ;;
  _ <- saveInstanceOptions ;;
  ret tt.

Definition on_save_group_name_click : M unit :=
  emit (ConsoleLog "save group name") ;;
  saveGroupNameOptions.

(** [onLoaded], up to its return: the fetch of the load is requested (its
    reaction runs once the fetch has settled, after [onLoaded] has
    returned, and the promise of [loadOptions] is dropped) and the
    listeners are registered. *)
Definition onLoaded : M unit :=
  emit (ConsoleLog "loading options") ;;
  emit CallFetchOptions ;;
  handleInstanceAdd ;;
  handleGroupNameAdd ;;
  emit (AddEventListener "save-instance-button" "click" save_instance_click) ;;
  emit (AddEventListener "save-group-name-button" "click" save_group_name_click).

End Methods.

End Options.

(** ** The page as the browser drives it *)

(** What the browser calls into the page after [onLoaded] has returned;
    each event carries what its listener reads from the page.
    [LoadSettles] is the fetch of the load settling: its reaction runs if
    it resolved, and nothing handles a rejection. *)
Inductive event : Type :=
| LoadSettles
| AddGroupClick (value : string)
| AddInstanceClick (host_value name_value : string)
| CheckboxChange (instance_index : nat) (checked : bool)
| SaveInstanceClick
| SaveGroupNameClick
| StatusTimer.

Definition dispatch (env : Persistence) (e : event) : Options.M unit :=
  match e with
  | LoadSettles =>
      match fetchOptions_settles env with
      | Resolved options => Options.loadOptions_fulfilled options
      | Rejected _ => Options.ret tt
      end
  | AddGroupClick value => Options.on_add_group_click value
  | AddInstanceClick host_value name_value =>
      Options.on_add_instance_click host_value name_value
  | CheckboxChange instance_index checked =>
      Options.on_checkbox_change instance_index checked
  | SaveInstanceClick => Options.on_save_instance_click env
  | SaveGroupNameClick => Options.on_save_group_name_click env
  | StatusTimer => Options.on_clear_status
  end.

(** The state after a sequence of events. An error that escapes a listener
    ends that listener only; what it changed before stays. *)
Definition run (env : Persistence) (events : list event) (this : Options.t)
  : Options.t :=
  foldl (fun this e => Options.state_after (dispatch env e) this) this events.

(** The models the page can be in: the new [Options] object is loaded, and
    then the browser delivers events. *)
Definition reachable (env : Persistence) (this : Options.t) : Prop :=
  exists events,
    this = run env events
               (Options.state_after Options.onLoaded Options.constructor).

(** ** Observations used in the statements *)

Definition hosts (this : Options.t) : list string :=
  GerritInstance.host <$> Options.instances_ this.

Definition with_host (host : string) (instances : list GerritInstance.t)
  : list GerritInstance.t :=
  filter (fun instance => GerritInstance.host instance = host) instances.

(** The calls of the persistence layer among some effects, in order. *)
Definition is_persistence_call (e : effect) : bool :=
  match e with
  | CallFetchOptions | CallSetAllowedOrigins _ | CallSaveOptions _ => true
  | _ => false
  end.

Definition persistence_calls (effects : list effect) : list effect :=
  List.filter is_persistence_call effects.

(** The texts written to the status element among some effects, in order. *)
Definition status_texts (effects : list effect) : list string :=
  omap (fun e => match e with
                 | SetInnerText id text =>
                     if String.eqb id "status" then Some text else None
                 | _ => None
                 end) effects.

(** The argument of each [setAllowedOrigins] call among some effects. *)
Definition allowed_origins_requests (effects : list effect) : list (list string) :=
  omap (fun e => match e with
                 | CallSetAllowedOrigins origins => Some origins
                 | _ => None
                 end) effects.

(** The origin the origin pattern extracts from a host: the first capture
    group, when the pattern matches. *)
Definition origin_of (host : string) : option string :=
  match RegExp.exec config.ORIGIN_REGEXP host with
  | Some match_ => RegExp.group match_ 1
  | None => None
  end.

Definition valid_groupName (groupName : string) : Prop :=
  RegExp.exec config.GROUP_NAME_REGEXP groupName <> None.

Definition valid_groupNameb (groupName : string) : bool :=
  match RegExp.exec config.GROUP_NAME_REGEXP groupName with
  | Some _ => true
  | None => false
  end.

Definition document_of (this : Options.t) : OptionsDocument.t :=
  {| OptionsDocument.instances := Options.instances_ this;
     OptionsDocument.groupNames := Options.groupNames_ this |}.

(** What one instance adds to the local array [origins]. *)
Definition origin_entries (instance : GerritInstance.t) : list string :=
  if GerritInstance.enabled instance then
    match RegExp.exec config.ORIGIN_REGEXP (GerritInstance.host instance) with
    | Some match_ => [Options.concat_value (RegExp.group match_ 1) "/*"]
    | None => []
    end
  else [].

(** ** The origin pattern, read *)

(** The rest of [s] after the prefix [p], when [s] starts with [p]. *)
Fixpoint strip_prefix (p s : list ascii) : option (list ascii) :=
  match p with
  | [] => Some s
  | c :: p' =>
      match s with
      | a :: s' => if Ascii.eqb c a then strip_prefix p' s' else None
      | [] => None
      end
  end.

Definition strip_scheme (s : list ascii) : option (list ascii) :=
  match strip_prefix (JsString.chars "https://") s with
  | Some rest => Some rest
  | None => strip_prefix (JsString.chars "http://") s
  end.

(** What is left from the first slash on. *)
Fixpoint from_first_slash (s : list ascii) : list ascii :=
  match s with
  | [] => []
  | a :: s' => if Ascii.eqb a "/" then s else from_first_slash s'
  end.

(** The scheme and what follows it up to the first slash, for a host that
    starts with [http://] or [https://]. *)
Definition scheme_and_authority (host : string) : option string :=
  let s := JsString.chars host in
  match strip_scheme s with
  | Some rest =>
      Some (JsString.of_chars
              (take (length s - length (from_first_slash rest)) s))
  | None => None
  end.

(** A pattern that reads the characters of [p] and goes on with [r]. *)
Definition literal (p : list ascii) (r : RegExp.regex) : RegExp.regex :=
  foldr (fun c rest => RegExp.Seq (RegExp.Char c) rest) r p.

Definition not_slash : RegExp.regex := RegExp.Class true [("/", "/")]%char.

(** The two groups of the origin pattern. *)
Definition origin_group_1 : RegExp.regex :=
  literal (JsString.chars "http")
          (RegExp.Seq (RegExp.Opt (RegExp.Char "s"))
                      (literal (JsString.chars "://") (RegExp.Star not_slash))).

Definition origin_group_2 : RegExp.regex :=
  RegExp.Seq (RegExp.Char "/") (RegExp.Plus not_slash).

(** What a successful match is made of: the result comes from the
    continuation, called on a rest of the input that is no longer, with as
    many captures as before, and with the captures of the groups outside
    [ids] as they were. *)
Definition through {R : Type} (ids : list nat) (s : list ascii)
           (caps : RegExp.captures) (k : RegExp.continuation (R := R)) (z : R)
  : Prop :=
  exists s' caps',
    k s' caps' = Some z
    /\ length s' <= length s
    /\ length caps' = length caps
    /\ forall i, (forall g, In g ids -> pred g <> i) -> caps' !! i = caps !! i.

(** ** Notions of the statements *)

(** The assignment [addGerritInstance] makes to an instance it finds. *)
Definition set_name_enabled (name : string) (instance : GerritInstance.t)
  : GerritInstance.t :=
  {| GerritInstance.host := GerritInstance.host instance;
     GerritInstance.name := name;
     GerritInstance.enabled := true |}.

(** The model after two calls of [addGerritInstance], the first with
    [host1], the second with [host2]. *)
Definition two_calls (host1 name1 : string) (enabled1 : bool)
           (host2 name2 : string) (enabled2 : bool) (this : Options.t)
  : Options.t :=
  Options.state_after (Options.addGerritInstance host2 name2 enabled2)
    (Options.state_after (Options.addGerritInstance host1 name1 enabled1) this).

(** A sentence of the options specification, as it is worded: after two
    calls with one host, the only instance of that host has the name and
    the flag of the second call. *)
Definition second_call_decides (this : Options.t) (host name1 : string)
           (enabled1 : bool) (name2 : string) (enabled2 : bool) : Prop :=
  with_host host
    (Options.instances (two_calls host name1 enabled1 host name2 enabled2 this))
  = [ {| GerritInstance.host := host;
         GerritInstance.name := name2;
         GerritInstance.enabled := enabled2 |} ].

(** A sentence of the options specification, as it is worded, for a way
    [entry] of writing an origin in the request: the request holds exactly
    the origins of the enabled instances, and the origin of no disabled
    instance. *)
Definition requests_enabled_origins_only (entry : string -> string)
           (env : Persistence) (this : Options.t) : Prop :=
  exists origins,
    allowed_origins_requests
      (Options.effects_of (Options.saveInstanceOptions env) this) = [origins]
    /\ (forall x, In x origins <->
                  exists instance origin,
                    In instance (Options.instances_ this)
                    /\ GerritInstance.enabled instance = true
                    /\ origin_of (GerritInstance.host instance) = Some origin
                    /\ x = entry origin)
    /\ (forall instance origin,
           In instance (Options.instances_ this) ->
           GerritInstance.enabled instance = false ->
           origin_of (GerritInstance.host instance) = Some origin ->
           ~ In (entry origin) origins).

(** What [this.setStatusText] throws when [this] is undefined. *)
Definition undefined_setStatusText : error :=
  TypeError "Cannot read properties of undefined (reading 'setStatusText')".

(** The invariant of the data model: no host and no group name twice. *)
Definition unique (this : Options.t) : Prop :=
  NoDup (hosts this) /\ NoDup (Options.groupNames_ this).

(** A computation keeps a property of the model, however it ends. *)
Definition preserves {A : Type} (P : Options.t -> Prop) (c : Options.M A) : Prop :=
  forall this, P this -> P (Options.state_after c this).

(** ** Sample models and persistence layers *)

Definition one_enabled_instance : GerritInstance.t :=
  {| GerritInstance.host := "https://a.example";
     GerritInstance.name := "A";
     GerritInstance.enabled := true |}.

(** An enabled instance whose host the origin expression does not match. *)
Definition unmatched_host : GerritInstance.t :=
  {| GerritInstance.host := "ftp://a.example";
     GerritInstance.name := "F";
     GerritInstance.enabled := true |}.

Definition unmatched_enabled : Options.t :=
  {| Options.instances_ := [unmatched_host; one_enabled_instance];
     Options.groupNames_ := [] |}.

(** An enabled and a disabled instance on one server. *)
Definition shared_origin : Options.t :=
  {| Options.instances_ :=
       [ {| GerritInstance.host := "https://a.example/x";
            GerritInstance.name := "X";
            GerritInstance.enabled := true |};
         {| GerritInstance.host := "https://a.example/y";
            GerritInstance.name := "Y";
            GerritInstance.enabled := false |} ];
     Options.groupNames_ := [] |}.

Definition one_valid_name : Options.t :=
  {| Options.instances_ := []; Options.groupNames_ := ["team-x"] |}.

Definition one_invalid_name : Options.t :=
  {| Options.instances_ := []; Options.groupNames_ := ["team-x"; "a b"] |}.

(** The model after the name "foo/bar" went through the group-name form. *)
Definition slash_name : Options.t :=
  {| Options.instances_ := []; Options.groupNames_ := ["foo/bar"] |}.

Definition stored_document : OptionsDocument.t :=
  {| OptionsDocument.instances := [one_enabled_instance];
     OptionsDocument.groupNames := ["team-x"] |}.

(** Everything resolves. *)
Definition storage_ok : Persistence :=
  {| fetchOptions_settles := Resolved stored_document;
     setAllowedOrigins_settles := fun _ => Resolved tt;
     saveOptions_settles := fun _ => Resolved tt |}.

(** The fetch and the save are rejected. *)
Definition storage_full : Persistence :=
  {| fetchOptions_settles := Rejected (Error "storage unavailable");
     setAllowedOrigins_settles := fun _ => Resolved tt;
     saveOptions_settles := fun _ => Rejected (Error "quota exceeded") |}.

(** The permission request is rejected. *)
Definition permission_denied : Persistence :=
  {| fetchOptions_settles := Resolved stored_document;
     setAllowedOrigins_settles := fun _ => Rejected (Reason "User denied");
     saveOptions_settles := fun _ => Resolved tt |}.

(** ** Further notions of the statements *)

(** The least number of characters a match of a pattern reads. *)
Fixpoint min_length (r : RegExp.regex) : nat :=
  match r with
  | RegExp.Char _ | RegExp.Dot | RegExp.Class _ _ => 1
  | RegExp.Seq r1 r2 => min_length r1 + min_length r2
  | RegExp.Alt r1 r2 => Nat.min (min_length r1) (min_length r2)
  | RegExp.Plus r1 | RegExp.Group _ r1 => min_length r1
  | RegExp.Empty | RegExp.Star _ | RegExp.Opt _ | RegExp.Bol | RegExp.Eol => 0
  end.

(** Where the path part of the origin pattern stops. [in_segment s] is
    the stop when [s] follows a character of a path segment;
    [after_path s] is the stop at a place where a segment may begin: a
    segment is a slash and at least one character that is no slash. *)
Fixpoint in_segment (s : list ascii) : list ascii :=
  match s with
  | [] => []
  | c :: s' =>
      if Ascii.eqb c "/" then
        match s' with
        | c2 :: s'' => if Ascii.eqb c2 "/" then s else in_segment s''
        | [] => s
        end
      else in_segment s'
  end.

Definition after_path (s : list ascii) : list ascii :=
  match s with
  | c :: c2 :: s'' =>
      if Ascii.eqb c "/" && negb (Ascii.eqb c2 "/") then in_segment s'' else s
  | _ => s
  end.

(** A host the origin pattern covers to its end: a scheme, what follows
    up to the first slash, and then only segments. *)
Definition host_fully_matched (host : string) : bool :=
  match strip_scheme (JsString.chars host) with
  | Some rest =>
      match after_path (from_first_slash rest) with
      | [] => true
      | _ :: _ => false
      end
  | None => false
  end.

(** The second model has the hosts and the group names of the first, in
    the same places, and maybe more after them. *)
Definition grows (this this' : Options.t) : Prop :=
  hosts this `prefix_of` hosts this'
  /\ Options.groupNames_ this `prefix_of` Options.groupNames_ this'.

(** The assignment the change listener of a checkbox makes. *)
Definition set_enabled (checked : bool) (instance : GerritInstance.t)
  : GerritInstance.t :=
  {| GerritInstance.host := GerritInstance.host instance;
     GerritInstance.name := GerritInstance.name instance;
     GerritInstance.enabled := checked |}.

(** What [setStatusText] does, with the default delay. *)
Definition status_effects (text : string) : list effect :=
  [SetInnerText "status" text; SetTimeout clear_status 750].

(** A persistence layer whose fetch resolves with a given document. *)
Definition fetches (options : OptionsDocument.t) : Persistence :=
  {| fetchOptions_settles := Resolved options;
     setAllowedOrigins_settles := fun _ => Resolved tt;
     saveOptions_settles := fun _ => Resolved tt |}.

(** A stored document with one group name twice. *)
Definition stored_twice : OptionsDocument.t :=
  {| OptionsDocument.instances := [one_enabled_instance];
     OptionsDocument.groupNames := ["team-x"; "team-y"; "team-x"] |}.

(** * Properties *)

(** ** The two scans of the save methods *)

Lemma allowed_origins_foldl (instances : list GerritInstance.t) (acc : list string) :
  foldl (fun origins instance =>
           if GerritInstance.enabled instance then
             match RegExp.exec config.ORIGIN_REGEXP
                               (GerritInstance.host instance) with
             | Some match_ =>
                 origins ++ [Options.concat_value (RegExp.group match_ 1) "/*"]
             | None => origins
             end
           else origins) acc instances
  = acc ++ concat (map origin_entries instances).
Proof.
  revert acc. induction instances as [|instance rest IH]; intros acc; simpl.
  - now rewrite app_nil_r.
  - rewrite IH. unfold origin_entries at 2.
    destruct (GerritInstance.enabled instance); [|reflexivity].
    destruct (RegExp.exec _ _); [|reflexivity].
    now rewrite <- app_assoc.
Qed.

Lemma allowed_origins_entries (instances : list GerritInstance.t) :
  Options.allowed_origins instances = concat (map origin_entries instances).
Proof. unfold Options.allowed_origins. now rewrite allowed_origins_foldl. Qed.

Lemma allowed_origins_app (l1 l2 : list GerritInstance.t) :
  Options.allowed_origins (l1 ++ l2)
  = Options.allowed_origins l1 ++ Options.allowed_origins l2.
Proof. rewrite !allowed_origins_entries, map_app. apply concat_app. Qed.

Lemma partition_groupNames_foldl (groupNames groups invalidGroups : list string) :
  foldl (fun '(groups, invalidGroups) groupName =>
           match RegExp.exec config.GROUP_NAME_REGEXP groupName with
           | Some _ => (groups ++ [groupName], invalidGroups)
           | None => (groups, invalidGroups ++ [groupName])
           end) (groups, invalidGroups) groupNames
  = (groups ++ List.filter valid_groupNameb groupNames,
     invalidGroups ++ List.filter (fun g => negb (valid_groupNameb g)) groupNames).
Proof.
  revert groups invalidGroups.
  induction groupNames as [|g rest IH]; intros groups invalidGroups; simpl.
  - now rewrite !app_nil_r.
  - assert (Hb : valid_groupNameb g
                 = match RegExp.exec config.GROUP_NAME_REGEXP g with
                   | Some _ => true
                   | None => false
                   end) by reflexivity.
    destruct (RegExp.exec config.GROUP_NAME_REGEXP g);
      rewrite IH, Hb; simpl; now rewrite <- app_assoc.
Qed.

Lemma partition_groupNames_filter (groupNames : list string) :
  Options.partition_groupNames groupNames
  = (List.filter valid_groupNameb groupNames,
     List.filter (fun g => negb (valid_groupNameb g)) groupNames).
Proof. unfold Options.partition_groupNames. now rewrite partition_groupNames_foldl. Qed.

Lemma valid_groupNameb_true (groupName : string) :
  valid_groupNameb groupName = true <-> valid_groupName groupName.
Proof.
  unfold valid_groupNameb, valid_groupName.
  destruct (RegExp.exec _ _); split; intros H; congruence.
Qed.

(** ** The matcher *)

Lemma clear_captures_length (ns : list nat) (caps : RegExp.captures) :
  length (RegExp.clear_captures ns caps) = length caps.
Proof.
  induction ns as [|n ns IH]; [reflexivity|].
  unfold RegExp.clear_captures in *. cbn [foldr].
  unfold RegExp.set_capture at 1. now rewrite length_insert.
Qed.

Lemma clear_captures_lookup (ns : list nat) (caps : RegExp.captures) (i : nat) :
  (forall g, In g ns -> pred g <> i) ->
  RegExp.clear_captures ns caps !! i = caps !! i.
Proof.
  induction ns as [|n ns IH]; intros Hout; [reflexivity|].
  unfold RegExp.clear_captures in *. cbn [foldr].
  unfold RegExp.set_capture at 1. rewrite list_lookup_insert_ne.
  - apply IH. intros g Hg. apply Hout. now right.
  - apply Hout. now left.
Qed.

Section MatcherResult.

Context {R : Type}.
Variable ignoreCase : bool.
Variable input_length : nat.

Lemma through_here (ids : list nat) (s : list ascii) (caps : RegExp.captures)
      (k : RegExp.continuation (R := R)) (z : R) :
  k s caps = Some z -> through ids s caps k z.
Proof. intros Hk. exists s, caps. auto. Qed.

Lemma through_step (ids ids' : list nat) (s s1 : list ascii)
      (caps caps1 : RegExp.captures) (k : RegExp.continuation (R := R))
      (z : R) :
  length s1 <= length s ->
  length caps1 = length caps ->
  (forall i, (forall g, In g ids -> pred g <> i) -> caps1 !! i = caps !! i) ->
  (forall g, In g ids' -> In g ids) ->
  through ids' s1 caps1 k z ->
  through ids s caps k z.
Proof.
  intros Hlen Hcaps Hout Hsub (s' & caps' & Hk & Hlen' & Hcaps' & Hout').
  exists s', caps'. repeat split; [exact Hk|lia|congruence|].
  intros i Hi. rewrite Hout', Hout; auto.
Qed.

Lemma repeat_matcher_through
      (m : list ascii -> RegExp.captures -> RegExp.continuation (R := R)
           -> option R)
      (inner : list nat) :
  (forall s caps k z, m s caps k = Some z -> through inner s caps k z) ->
  forall fuel s caps k z,
    RegExp.repeat_matcher m inner fuel s caps k = Some z ->
    through inner s caps k z.
Proof.
  intros Hm. induction fuel as [|fuel IH]; intros s caps k z; [discriminate|].
  cbn. destruct (m s _ _) as [z'|] eqn:Hiter.
  - intros [= ->]. apply Hm in Hiter as (s1 & caps1 & Hk & Hlen & Hcaps & Hout).
    destruct (length s1 =? length s); [discriminate|]. apply IH in Hk.
    rewrite clear_captures_length in Hcaps.
    apply (through_step inner inner s s1 caps caps1); auto.
    intros i Hi. rewrite Hout by exact Hi. now apply clear_captures_lookup.
  - apply through_here.
Qed.

Lemma matcher_through (r : RegExp.regex) :
  forall s caps (k : RegExp.continuation (R := R)) z,
    RegExp.matcher ignoreCase input_length r s caps k = Some z ->
    through (RegExp.group_ids r) s caps k z.
Proof.
  induction r as [ |c| |negated ranges|r1 IH1 r2 IH2|r1 IH1 r2 IH2
                  |r1 IH1|r1 IH1|r1 IH1|n r1 IH1| | ];
    intros s caps k z Hm; cbn [RegExp.matcher] in Hm.
  - now apply through_here.
  - destruct s as [|a s']; [discriminate|].
    destruct (RegExp.char_matches _ _ _); [|discriminate].
    apply (through_step _ [] _ s' _ caps); cbn; auto.
    now apply through_here.
  - destruct s as [|a s']; [discriminate|].
    destruct (RegExp.is_line_terminator _); [discriminate|].
    apply (through_step _ [] _ s' _ caps); cbn; auto.
    now apply through_here.
  - destruct s as [|a s']; [discriminate|].
    destruct (xorb _ _); [|discriminate].
    apply (through_step _ [] _ s' _ caps); cbn; auto.
    now apply through_here.
  - apply IH1 in Hm as (s1 & caps1 & Hk & Hlen & Hcaps & Hout).
    apply IH2 in Hk.
    apply (through_step _ (RegExp.group_ids r2) s s1 caps caps1); auto.
    + intros i Hi. apply Hout. intros g Hg. apply Hi. cbn.
      apply in_or_app. now left.
    + intros g Hg. cbn. apply in_or_app. now right.
  - destruct (RegExp.matcher _ _ r1 _ _ _) as [z'|] eqn:H1.
    + injection Hm as ->. apply IH1 in H1.
      apply (through_step _ (RegExp.group_ids r1) s s caps caps); auto.
      intros g Hg. cbn. apply in_or_app. now left.
    + apply IH2 in Hm.
      apply (through_step _ (RegExp.group_ids r2) s s caps caps); auto.
      intros g Hg. cbn. apply in_or_app. now right.
  - now apply (repeat_matcher_through _ _ IH1) in Hm.
  - apply IH1 in Hm as (s1 & caps1 & Hk & Hlen & Hcaps & Hout).
    apply (repeat_matcher_through _ _ IH1) in Hk.
    rewrite clear_captures_length in Hcaps.
    apply (through_step _ (RegExp.group_ids r1) s s1 caps caps1); auto.
    intros i Hi. rewrite Hout by exact Hi. now apply clear_captures_lookup.
  - destruct (RegExp.matcher _ _ r1 _ _ _) as [z'|] eqn:H1.
    + injection Hm as ->.
      apply IH1 in H1 as (s1 & caps1 & Hk & Hlen & Hcaps & Hout).
      destruct (length s1 =? length s); [discriminate|].
      rewrite clear_captures_length in Hcaps.
      apply (through_step _ [] s s1 caps caps1); cbn; auto.
      * intros i Hi. rewrite Hout by exact Hi. now apply clear_captures_lookup.
      * tauto.
      * now apply through_here.
    + now apply through_here.
  - apply IH1 in Hm as (s1 & caps1 & Hk & Hlen & Hcaps & Hout).
    exists s1, (RegExp.set_capture n
                  (Some (take (length s - length s1) s)) caps1).
    split; [exact Hk|]. split; [exact Hlen|].
    unfold RegExp.set_capture. rewrite length_insert.
    split; [exact Hcaps|].
    intros i Hi. rewrite list_lookup_insert_ne by (apply Hi; now left).
    apply Hout. intros g Hg. apply Hi. now right.
  - destruct (length s =? input_length); [|discriminate].
    now apply through_here.
  - destruct s; [|discriminate]. now apply through_here.
Qed.

End MatcherResult.

Section MatcherFuel.

Context {R : Type}.
Variable ignoreCase : bool.
Variable input_length : nat.

(** A matcher looks at its continuation only on rests of the input that
    are no longer than the input it was given. *)
Lemma repeat_matcher_ext
      (m : list ascii -> RegExp.captures -> RegExp.continuation (R := R)
           -> option R)
      (inner : list nat) :
  (forall s caps k1 k2,
      (forall s' caps', length s' <= length s -> k1 s' caps' = k2 s' caps') ->
      m s caps k1 = m s caps k2) ->
  forall fuel s caps (k1 k2 : RegExp.continuation (R := R)),
    (forall s' caps', length s' <= length s -> k1 s' caps' = k2 s' caps') ->
    RegExp.repeat_matcher m inner fuel s caps k1
    = RegExp.repeat_matcher m inner fuel s caps k2.
Proof.
  intros Hm. induction fuel as [|fuel IH]; intros s caps k1 k2 Hk; [reflexivity|].
  cbn. rewrite (Hk s caps) by lia.
  erewrite Hm; [reflexivity|].
  intros s' caps' Hlen. cbn beta.
  destruct (length s' =? length s); [reflexivity|].
  apply IH. intros s'' caps'' Hlen'. apply Hk. lia.
Qed.

Lemma matcher_ext (r : RegExp.regex) :
  forall s caps (k1 k2 : RegExp.continuation (R := R)),
    (forall s' caps', length s' <= length s -> k1 s' caps' = k2 s' caps') ->
    RegExp.matcher ignoreCase input_length r s caps k1
    = RegExp.matcher ignoreCase input_length r s caps k2.
Proof.
  induction r as [ |c| |negated ranges|r1 IH1 r2 IH2|r1 IH1 r2 IH2
                  |r1 IH1|r1 IH1|r1 IH1|n r1 IH1| | ];
    intros s caps k1 k2 Hk; cbn [RegExp.matcher].
  - apply Hk. lia.
  - destruct s as [|a s']; [reflexivity|].
    destruct (RegExp.char_matches _ _ _); [|reflexivity]. apply Hk. cbn. lia.
  - destruct s as [|a s']; [reflexivity|].
    destruct (RegExp.is_line_terminator _); [reflexivity|]. apply Hk. cbn. lia.
  - destruct s as [|a s']; [reflexivity|].
    destruct (xorb _ _); [|reflexivity]. apply Hk. cbn. lia.
  - apply IH1. intros s' caps' Hlen. apply IH2.
    intros s'' caps'' Hlen'. apply Hk. lia.
  - rewrite (IH1 s caps k1 k2 Hk), (IH2 s caps k1 k2 Hk). reflexivity.
  - now apply (repeat_matcher_ext _ _ IH1).
  - apply IH1. intros s' caps' Hlen.
    apply (repeat_matcher_ext _ _ IH1). intros s'' caps'' Hlen'. apply Hk. lia.
  - rewrite (Hk s caps) by lia. erewrite IH1; [reflexivity|].
    intros s' caps' Hlen. cbn beta.
    destruct (length s' =? length s); [reflexivity|]. now apply Hk.
  - apply IH1. intros s' caps' Hlen. cbn beta.
    now rewrite (Hk s' _ Hlen).
  - destruct (length s =? input_length); [|reflexivity]. apply Hk. lia.
  - destruct s; [|reflexivity]. apply Hk. lia.
Qed.

(** The fuel of a star is never what decides: any two amounts above the
    length of the rest of the input give the same result, so the branch
    for no fuel left is not reached from [matcher]. *)
Theorem repeat_matcher_fuel (r : RegExp.regex) (inner : list nat) :
  forall (s : list ascii) fuel1 fuel2 caps (k : RegExp.continuation (R := R)),
    length s < fuel1 -> length s < fuel2 ->
    RegExp.repeat_matcher (RegExp.matcher ignoreCase input_length r) inner
                          fuel1 s caps k
    = RegExp.repeat_matcher (RegExp.matcher ignoreCase input_length r) inner
                            fuel2 s caps k.
Proof.
  intros s. remember (length s) as n eqn:Hn. revert s Hn.
  induction n as [n IH] using lt_wf_ind.
  intros s -> fuel1 fuel2 caps k Hfuel1 Hfuel2.
  destruct fuel1 as [|fuel1]; [lia|]. destruct fuel2 as [|fuel2]; [lia|].
  cbn. erewrite matcher_ext; [reflexivity|].
  intros s' caps' Hlen. cbn beta.
  destruct (length s' =? length s) eqn:Heq; [reflexivity|].
  apply Nat.eqb_neq in Heq.
  apply (IH (length s')); [lia|reflexivity|lia|lia].
Qed.

End MatcherFuel.

(** ** The origin pattern *)

Lemma ORIGIN_REGEXP_parsed :
  config.ORIGIN_REGEXP
  = {| RegExp.source :=
         RegExp.Seq RegExp.Bol
           (RegExp.Seq (RegExp.Group 1 origin_group_1)
                       (RegExp.Star (RegExp.Group 2 origin_group_2)));
       RegExp.group_count := 2;
       RegExp.ignoreCase := false |}.
Proof. reflexivity. Qed.

(** The group-name expression of the configuration, parsed: the dot is the
    wildcard. *)
Lemma GROUP_NAME_REGEXP_parsed :
  let word_chs :=
    RegExp.Plus (RegExp.Class false
                   [("a", "z"); ("A", "Z"); ("0", "9"); ("_", "_"); ("-", "-")]%char)
  in
  config.GROUP_NAME_REGEXP
  = {| RegExp.source :=
         RegExp.Seq RegExp.Bol
           (RegExp.Seq word_chs
              (RegExp.Seq (RegExp.Star (RegExp.Char "@"))
                 (RegExp.Seq word_chs
                    (RegExp.Seq (RegExp.Star RegExp.Dot)
                       (RegExp.Seq word_chs RegExp.Eol)))));
       RegExp.group_count := 0;
       RegExp.ignoreCase := true |}.
Proof. reflexivity. Qed.

Section OriginMatcher.

Context {R : Type}.
Variable input_length : nat.

Lemma matcher_literal (p : list ascii) (r : RegExp.regex) (s : list ascii)
      (caps : RegExp.captures) (k : RegExp.continuation (R := R)) :
  RegExp.matcher false input_length (literal p r) s caps k
  = match strip_prefix p s with
    | Some s' => RegExp.matcher false input_length r s' caps k
    | None => None
    end.
Proof.
  revert s. induction p as [|c p IH]; intros s; [reflexivity|].
  cbn. destruct s as [|a s]; [reflexivity|].
  unfold RegExp.char_matches. destruct (Ascii.eqb c a); [apply IH|reflexivity].
Qed.

Lemma not_slash_matches (a : ascii) :
  xorb true (RegExp.class_matches false [("/", "/")]%char a)
  = negb (Ascii.eqb a "/").
Proof. destruct a as [[] [] [] [] [] [] [] []]; reflexivity. Qed.

(** The greedy star over [[^/]] reads up to the first slash, when the
    continuation accepts that. *)
Lemma star_not_slash (s : list ascii) :
  forall fuel caps (k : RegExp.continuation (R := R)) z,
    length s < fuel ->
    k (from_first_slash s) caps = Some z ->
    RegExp.repeat_matcher (RegExp.matcher false input_length not_slash) []
                          fuel s caps k
    = Some z.
Proof.
  induction s as [|a s IH]; intros fuel caps k z Hfuel Hk;
    (destruct fuel as [|fuel]; [inversion Hfuel|]).
  - cbn. exact Hk.
  - cbn [RegExp.repeat_matcher RegExp.clear_captures foldr].
    unfold not_slash at 1. cbn [RegExp.matcher].
    rewrite not_slash_matches. cbn [from_first_slash] in Hk.
    destruct (Ascii.eqb a "/"); cbn [negb].
    + exact Hk.
    + replace (length s =? length (a :: s)) with false
        by (symmetry; apply Nat.eqb_neq; cbn; lia).
      rewrite (IH fuel caps k z); [reflexivity| |exact Hk].
      cbn in Hfuel. lia.
Qed.

Lemma strip_prefix_app (p q s : list ascii) :
  strip_prefix (p ++ q) s
  = match strip_prefix p s with
    | Some s' => strip_prefix q s'
    | None => None
    end.
Proof.
  revert s. induction p as [|c p IH]; intros s; [reflexivity|].
  cbn. destruct s as [|a s]; [reflexivity|].
  destruct (Ascii.eqb c a); [apply IH|reflexivity].
Qed.

(** The first group reads the scheme and then the star. *)
Lemma matcher_origin_group_1 (s : list ascii) (caps : RegExp.captures)
      (k : RegExp.continuation (R := R)) :
  RegExp.matcher false input_length origin_group_1 s caps k
  = match strip_scheme s with
    | Some rest =>
        RegExp.repeat_matcher (RegExp.matcher false input_length not_slash) []
                              (S (length rest)) rest caps k
    | None => None
    end.
Proof.
  unfold origin_group_1, strip_scheme. rewrite matcher_literal.
  change (JsString.chars "https://")
    with (JsString.chars "http" ++ "s"%char :: JsString.chars "://").
  change (JsString.chars "http://")
    with (JsString.chars "http" ++ JsString.chars "://").
  rewrite !strip_prefix_app.
  destruct (strip_prefix (JsString.chars "http") s) as [s1|]; [|reflexivity].
  cbn [RegExp.matcher RegExp.group_ids RegExp.clear_captures foldr].
  rewrite !matcher_literal.
  destruct s1 as [|a s2]; [reflexivity|].
  cbn [strip_prefix]. unfold RegExp.char_matches.
  destruct (Ascii.eqb_spec "s" a) as [<-|Hne].
  - replace (length s2 =? length ("s"%char :: s2)) with false
      by (symmetry; apply Nat.eqb_neq; cbn; lia).
    rewrite matcher_literal.
    destruct (strip_prefix (JsString.chars "://") s2) as [rest|].
    + cbn [RegExp.matcher]. now destruct (RegExp.repeat_matcher _ _ _ _ _ _).
    + reflexivity.
  - reflexivity.
Qed.

End OriginMatcher.

(** An expression that starts with [^] matches at the start or not at
    all. *)
Lemma exec_from_after_start (re : RegExp.t) (r : RegExp.regex)
      (input_length : nat) (s : list ascii) :
  RegExp.source re = RegExp.Seq RegExp.Bol r ->
  length s < input_length ->
  RegExp.exec_from re input_length s = None.
Proof.
  intros Hsource. induction s as [|a s IH]; intros Hlen; cbn;
    rewrite Hsource; cbn [RegExp.matcher].
  - replace (length (A := ascii) [] =? input_length) with false
      by (symmetry; apply Nat.eqb_neq; cbn in *; lia).
    reflexivity.
  - replace (length (a :: s) =? input_length) with false
      by (symmetry; apply Nat.eqb_neq; lia).
    apply IH. cbn in Hlen. lia.
Qed.

(** A star never fails when its continuation never does. *)
Lemma repeat_matcher_total {R : Type}
      (m : list ascii -> RegExp.captures -> RegExp.continuation (R := R)
           -> option R)
      (inner : list nat) (fuel : nat) (s : list ascii) (caps : RegExp.captures)
      (k : RegExp.continuation) :
  (forall s' caps', k s' caps' <> None) ->
  RegExp.repeat_matcher m inner (S fuel) s caps k <> None.
Proof.
  intros Hk. cbn. destruct (m s _ _); [discriminate|apply Hk].
Qed.

(** What [exec] of the origin expression returns: nothing for a host that
    does not start with one of the two schemes; otherwise a match whose
    first group is the scheme with all that follows up to the first
    slash. *)
Lemma exec_ORIGIN_REGEXP (host : string) :
  match RegExp.exec config.ORIGIN_REGEXP host with
  | Some match_ => exists origin,
      scheme_and_authority host = Some origin
      /\ RegExp.group match_ 1 = Some origin
  | None => scheme_and_authority host = None
  end.
Proof.
  unfold scheme_and_authority, RegExp.exec.
  set (s := JsString.chars host).
  assert (Hunfold :
    RegExp.exec_from config.ORIGIN_REGEXP (length s) s
    = match RegExp.matcher (RegExp.ignoreCase config.ORIGIN_REGEXP) (length s)
              (RegExp.source config.ORIGIN_REGEXP) s
              (replicate (RegExp.group_count config.ORIGIN_REGEXP) None)
              (fun s' caps' => Some (s', caps')) with
      | Some (s', caps') =>
          Some {| RegExp.index := length s - length s;
                  RegExp.matched :=
                    JsString.of_chars (take (length s - length s') s);
                  RegExp.groups := map (option_map JsString.of_chars) caps' |}
      | None =>
          match s with
          | [] => None
          | _ :: s' => RegExp.exec_from config.ORIGIN_REGEXP (length s) s'
          end
      end) by (destruct s; reflexivity).
  rewrite Hunfold. clear Hunfold. rewrite ORIGIN_REGEXP_parsed.
  cbn [RegExp.source RegExp.ignoreCase RegExp.group_count RegExp.matcher replicate].
  rewrite Nat.eqb_refl, matcher_origin_group_1.
  destruct (strip_scheme s) as [rest|].
  - set (v := take (length s - length (from_first_slash rest)) s).
    set (k0 := fun (s' : list ascii) (caps' : RegExp.captures) => Some (s', caps')).
    assert (Hpath : exists s' caps',
               RegExp.matcher false (length s)
                 (RegExp.Star (RegExp.Group 2 origin_group_2))
                 (from_first_slash rest)
                 (RegExp.set_capture 1 (Some v) [None; None]) k0
               = Some (s', caps')
               /\ caps' !! 0 = Some (Some v)).
    { destruct (RegExp.matcher false (length s)
                  (RegExp.Star (RegExp.Group 2 origin_group_2))
                  (from_first_slash rest)
                  (RegExp.set_capture 1 (Some v) [None; None]) k0)
        as [[s' caps']|] eqn:Hm.
      - exists s', caps'. split; [reflexivity|].
        apply matcher_through in Hm as (s2 & caps2 & Hk & _ & _ & Hout).
        injection Hk as <- <-. rewrite Hout; [reflexivity|].
        cbn. intros g [<-|[]]; discriminate.
      - exfalso. revert Hm. cbn [RegExp.matcher].
        apply repeat_matcher_total. intros; discriminate. }
    destruct Hpath as (s' & caps' & Hpath & Hgroup).
    rewrite (star_not_slash (length s) rest (S (length rest)) [None; None] _
               (s', caps')); [|lia|exact Hpath].
    exists (JsString.of_chars v). split; [reflexivity|].
    unfold RegExp.group. cbn [RegExp.groups pred].
    change (map (option_map JsString.of_chars) caps')
      with (option_map JsString.of_chars <$> caps').
    now rewrite list_lookup_fmap, Hgroup.
  - destruct s as [|a s']; [reflexivity|].
    erewrite exec_from_after_start; [reflexivity|reflexivity|cbn; lia].
Qed.

(** X14: the origin of a host, spelled out. The origin expression matches
    exactly the hosts that start with [http://] or [https://], anywhere
    else it returns null; its first group is then the scheme together with
    everything up to the first slash after it (to the end of the host when
    there is none). *)
Theorem origin_of_scheme_and_authority (host : string) :
  origin_of host = scheme_and_authority host.
Proof.
  unfold origin_of. pose proof (exec_ORIGIN_REGEXP host) as Hexec.
  destruct (RegExp.exec config.ORIGIN_REGEXP host) as [match_|].
  - destruct Hexec as (origin & -> & ->). reflexivity.
  - now rewrite Hexec.
Qed.

(** What an instance adds to the allowed origins, in terms of its
    origin. *)
Lemma origin_entries_origin_of (instance : GerritInstance.t) :
  origin_entries instance
  = if GerritInstance.enabled instance then
      match origin_of (GerritInstance.host instance) with
      | Some origin => [origin +:+ "/*"]
      | None => []
      end
    else [].
Proof.
  unfold origin_entries, origin_of.
  pose proof (exec_ORIGIN_REGEXP (GerritInstance.host instance)) as Hexec.
  destruct (GerritInstance.enabled instance); [|reflexivity].
  destruct (RegExp.exec config.ORIGIN_REGEXP _) as [match_|]; [|reflexivity].
  destruct Hexec as (origin & _ & ->). reflexivity.
Qed.

Example origin_of_with_path :
  origin_of "https://a.example:8080/r/plugins" = Some "https://a.example:8080".
Proof. reflexivity. Qed.

Example origin_of_other_scheme : origin_of "ftp://a.example" = None.
Proof. reflexivity. Qed.

(** ** Running the promise chains *)

(** The three steps every save ends with. *)
Lemma setStatusText_run (text : string) (this : Options.t) :
  Options.setStatusText text None this
  = (Normal tt, this, [SetInnerText "status" text; SetTimeout clear_status 750]).
Proof. reflexivity. Qed.

Lemma saveInstanceOptions_run (env : Persistence) (this : Options.t) :
  Options.saveInstanceOptions env this
  = (Normal (Resolved tt), this,
     ConsoleLog ("groupNames: " +:+ JsString.join "," (Options.groupNames_ this))
     :: CallSetAllowedOrigins (Options.allowed_origins (Options.instances_ this))
     :: match setAllowedOrigins_settles env
                (Options.allowed_origins (Options.instances_ this)) with
        | Rejected e =>
            [SetInnerText "status" (String_ e); SetTimeout clear_status 750]
        | Resolved _ =>
            CallSaveOptions (document_of this)
            :: match saveOptions_settles env (document_of this) with
               | Rejected e =>
                   [SetInnerText "status" (String_ e);
                    SetTimeout clear_status 750]
               | Resolved _ =>
                   [SetInnerText "status" "Options saved.";
                    SetTimeout clear_status 750]
               end
        end).
Proof.
  unfold Options.saveInstanceOptions, Options.catch_, Options.then_,
    Options.then_promise, Options.browser_setAllowedOrigins,
    Options.browser_saveOptions, Options.current_options, Options.bind_this,
    Options.on, Options.bind, Options.get, Options.emit, Options.ret.
  fold (document_of this).
  destruct (setAllowedOrigins_settles env _) as [[]|e]; simpl.
  - destruct (saveOptions_settles env _) as [[]|e]; reflexivity.
  - reflexivity.
Qed.

Lemma saveGroupNameOptions_run (env : Persistence) (this : Options.t) :
  Options.saveGroupNameOptions env this
  = (Normal tt, this,
     ConsoleLog "calling saveGroupNameOptions"
     :: match List.filter (fun g => negb (valid_groupNameb g))
                          (Options.groupNames_ this) with
        | _ :: _ =>
            [SetInnerText "status"
               ("Invalid group names: "
                +:+ JsString.join ", "
                      (List.filter (fun g => negb (valid_groupNameb g))
                                   (Options.groupNames_ this)));
             SetTimeout clear_status 750]
        | [] =>
            match List.filter valid_groupNameb (Options.groupNames_ this) with
            | [] =>
                [SetInnerText "status" "Nothing to save";
                 SetTimeout clear_status 750]
            | _ :: _ =>
                ConsoleLog "saveOptions: [object Object]"
                :: CallSaveOptions (document_of this)
                :: match saveOptions_settles env (document_of this) with
                   | Rejected e =>
                       [SetInnerText "status" (String_ e);
                        SetTimeout clear_status 750]
                   | Resolved _ =>
                       [SetInnerText "status" "Options saved.";
                        SetTimeout clear_status 750]
                   end
            end
        end).
Proof.
  unfold Options.saveGroupNameOptions, Options.bind at 1 2.
  unfold Options.emit at 1, Options.get at 1.
  rewrite partition_groupNames_filter.
  destruct (List.filter (fun g => negb (valid_groupNameb g)) _) as [|g invalid];
    [|reflexivity].
  destruct (List.filter valid_groupNameb _) as [|g valid]; [reflexivity|].
  unfold Options.catch_, Options.then_, Options.browser_saveOptions,
    Options.current_options, Options.bind_this, Options.on, Options.bind,
    Options.get, Options.emit, Options.ret.
  fold (document_of this). simpl.
  destruct (saveOptions_settles env _) as [[]|e]; reflexivity.
Qed.

Lemma loadOptions_rejected (env : Persistence) (this : Options.t) (e : error) :
  fetchOptions_settles env = Rejected e ->
  Options.loadOptions env this = (Normal (Rejected e), this, [CallFetchOptions]).
Proof.
  intros Hfetch.
  unfold Options.loadOptions, Options.then_, Options.gerrit_fetchOptions,
    Options.bind, Options.emit, Options.ret.
  now rewrite Hfetch.
Qed.

(** ** Saving *)

Lemma filter_invalid_nil (names : list string) :
  List.filter (fun g => negb (valid_groupNameb g)) names = []
  <-> Forall valid_groupName names.
Proof.
  induction names as [|g rest IH]; simpl.
  - split; [constructor | reflexivity].
  - destruct (valid_groupNameb g) eqn:Hg; simpl.
    + rewrite IH. apply valid_groupNameb_true in Hg. split.
      * now constructor.
      * now inversion 1.
    + split; [discriminate|]. inversion 1; subst.
      apply valid_groupNameb_true in H2. congruence.
Qed.

Lemma filter_valid_all (names : list string) :
  Forall valid_groupName names -> List.filter valid_groupNameb names = names.
Proof.
  induction 1 as [|g rest Hg _ IH]; simpl; [reflexivity|].
  apply valid_groupNameb_true in Hg. now rewrite Hg, IH.
Qed.

(** The branches of [saveGroupNameOptions], in terms of the test the code
    makes, [config.GROUP_NAME_REGEXP.exec] (here [valid_groupName]). That
    expression is not the group-name pattern of the options specification:
    its dot is a wildcard ([GROUP_NAME_REGEXP_accepts_slash]), so a name
    like "foo/bar" falls in the last branch here. If some name fails the
    test, the persistence layer is not called and the status text lists the
    failing names; if every name passes and the list is empty, nothing is
    persisted and the status text is "Nothing to save"; otherwise the
    options document is handed to [saveOptions]. *)
Theorem saveGroupNameOptions_cases (env : Persistence) (this : Options.t) :
  let effects := Options.effects_of (Options.saveGroupNameOptions env) this in
  let names := Options.groupNames_ this in
  ((exists g, In g names /\ ~ valid_groupName g) ->
   persistence_calls effects = [] /\
   status_texts effects
   = ["Invalid group names: "
      +:+ JsString.join ", "
            (List.filter (fun g => negb (valid_groupNameb g)) names)])
  /\ (Forall valid_groupName names -> names = [] ->
      persistence_calls effects = [] /\
      status_texts effects = ["Nothing to save"])
  /\ (Forall valid_groupName names -> names <> [] ->
      persistence_calls effects = [CallSaveOptions (document_of this)] /\
      status_texts effects
      = [match saveOptions_settles env (document_of this) with
         | Resolved _ => "Options saved."
         | Rejected e => String_ e
         end]).
Proof.
  intros effects names. subst effects names.
  unfold Options.effects_of. rewrite saveGroupNameOptions_run. simpl.
  split; [|split].
  - intros (g & Hin & Hbad).
    destruct (List.filter (fun g => negb (valid_groupNameb g)) _) eqn:Hinv.
    + apply filter_invalid_nil in Hinv.
      rewrite List.Forall_forall in Hinv. now apply Hinv in Hin.
    + split; reflexivity.
  - intros Hall Hnil. apply filter_invalid_nil in Hall.
    rewrite Hall, Hnil. split; reflexivity.
  - intros Hall Hne. rewrite (filter_valid_all _ Hall).
    apply filter_invalid_nil in Hall. rewrite Hall.
    destruct (Options.groupNames_ this) as [|g rest]; [congruence|].
    destruct (saveOptions_settles env _); split; reflexivity.
Qed.

Lemma saveGroupNameOptions_cases_witness :
  ((exists g, In g (Options.groupNames_ one_invalid_name) /\ ~ valid_groupName g)
   /\ persistence_calls
        (Options.effects_of (Options.saveGroupNameOptions storage_full)
                            one_invalid_name) = []
   /\ status_texts
        (Options.effects_of (Options.saveGroupNameOptions storage_full)
                            one_invalid_name)
      = ["Invalid group names: a b"])
  /\ (Forall valid_groupName (Options.groupNames_ Options.constructor)
      /\ status_texts
           (Options.effects_of (Options.saveGroupNameOptions storage_full)
                               Options.constructor)
         = ["Nothing to save"])
  /\ (Forall valid_groupName (Options.groupNames_ one_valid_name)
      /\ persistence_calls
           (Options.effects_of (Options.saveGroupNameOptions storage_full)
                               one_valid_name)
         = [CallSaveOptions (document_of one_valid_name)]).
Proof.
  assert (Hbad : exists g, In g (Options.groupNames_ one_invalid_name)
                           /\ ~ valid_groupName g).
  { exists "a b". split; [right; left; reflexivity|].
    intros Hvalid. apply Hvalid. reflexivity. }
  assert (Hgood : Forall valid_groupName (Options.groupNames_ one_valid_name)).
  { repeat constructor. unfold valid_groupName. vm_compute. discriminate. }
  split; [|split].
  - split; [exact Hbad|].
    exact (proj1 (saveGroupNameOptions_cases storage_full one_invalid_name) Hbad).
  - split; [constructor|].
    exact (proj2 (proj1 (proj2 (saveGroupNameOptions_cases
                                  storage_full Options.constructor))
                        (List.Forall_nil _) eq_refl)).
  - split; [exact Hgood|].
    refine (proj1 (proj2 (proj2 (saveGroupNameOptions_cases
                                   storage_full one_valid_name)) Hgood _)).
    discriminate.
Defined.

(** C5: [saveGroupNameOptions] does not keep a name that fails the
    group-name pattern out of storage. The name "foo/bar" fails the pattern
    of the options specification (the one with the escaped dot); the form
    stores it all the same, and on the model that holds it
    [saveGroupNameOptions] calls [saveOptions] with the whole document,
    "foo/bar" included, for every persistence layer, and answers
    "Options saved." when the save resolves; it should call nothing and
    report the name as invalid. The method tests with
    [config.GROUP_NAME_REGEXP], whose dot lost its backslash. *)
Theorem saveGroupNameOptions_persists_slash_name (env : Persistence) :
  RegExp.exec spec_GROUP_NAME_REGEXP "foo/bar" = None
  /\ run env [AddGroupClick "foo/bar"]
         (Options.state_after Options.onLoaded Options.constructor)
     = slash_name
  /\ persistence_calls
       (Options.effects_of (Options.saveGroupNameOptions env) slash_name)
     = [CallSaveOptions
          {| OptionsDocument.instances := [];
             OptionsDocument.groupNames := ["foo/bar"] |}]
  /\ status_texts
       (Options.effects_of (Options.saveGroupNameOptions storage_ok) slash_name)
     = ["Options saved."].
Proof.
  split; [reflexivity|]. split; [reflexivity|].
  unfold Options.effects_of. rewrite saveGroupNameOptions_run.
  change (List.filter (fun g => negb (valid_groupNameb g))
                      (Options.groupNames_ slash_name)) with (@nil string).
  change (List.filter valid_groupNameb (Options.groupNames_ slash_name))
    with ["foo/bar"].
  cbn [snd]. split.
  - now destruct (saveOptions_settles env _).
  - reflexivity.
Qed.

(** C7: [saveInstanceOptions] requests [setAllowedOrigins] first and
    requests [saveOptions], with the document of the two lists, only once
    that has resolved; when both resolve the status text is
    "Options saved.", and when either rejects the status text is the string
    form of the error (and [saveOptions] is not requested when the first
    step rejects). *)
Theorem saveInstanceOptions_two_steps (env : Persistence) (this : Options.t) :
  let effects := Options.effects_of (Options.saveInstanceOptions env) this in
  let origins := Options.allowed_origins (Options.instances_ this) in
  let doc := document_of this in
  (setAllowedOrigins_settles env origins = Resolved tt ->
   persistence_calls effects = [CallSetAllowedOrigins origins; CallSaveOptions doc])
  /\ (forall e, setAllowedOrigins_settles env origins = Rejected e ->
      persistence_calls effects = [CallSetAllowedOrigins origins]
      /\ status_texts effects = [String_ e])
  /\ (setAllowedOrigins_settles env origins = Resolved tt ->
      saveOptions_settles env doc = Resolved tt ->
      status_texts effects = ["Options saved."])
  /\ (forall e, setAllowedOrigins_settles env origins = Resolved tt ->
      saveOptions_settles env doc = Rejected e ->
      status_texts effects = [String_ e]).
Proof.
  intros effects origins doc. subst effects origins doc.
  unfold Options.effects_of. rewrite saveInstanceOptions_run. simpl.
  split; [|split; [|split]].
  - intros ->. now destruct (saveOptions_settles env _).
  - intros e ->. split; reflexivity.
  - intros -> ->. reflexivity.
  - intros e -> ->. reflexivity.
Qed.

Lemma saveInstanceOptions_two_steps_witness :
  (setAllowedOrigins_settles storage_ok
     (Options.allowed_origins (Options.instances_ one_valid_name)) = Resolved tt
   /\ saveOptions_settles storage_ok (document_of one_valid_name) = Resolved tt
   /\ persistence_calls
        (Options.effects_of (Options.saveInstanceOptions storage_ok) one_valid_name)
      = [CallSetAllowedOrigins []; CallSaveOptions (document_of one_valid_name)]
   /\ status_texts
        (Options.effects_of (Options.saveInstanceOptions storage_ok) one_valid_name)
      = ["Options saved."])
  /\ (setAllowedOrigins_settles permission_denied
        (Options.allowed_origins (Options.instances_ one_valid_name))
      = Rejected (Reason "User denied")
      /\ persistence_calls
           (Options.effects_of (Options.saveInstanceOptions permission_denied)
                               one_valid_name)
         = [CallSetAllowedOrigins []]
      /\ status_texts
           (Options.effects_of (Options.saveInstanceOptions permission_denied)
                               one_valid_name)
         = ["User denied"])
  /\ (saveOptions_settles storage_full (document_of one_valid_name)
      = Rejected (Error "quota exceeded")
      /\ status_texts
           (Options.effects_of (Options.saveInstanceOptions storage_full)
                               one_valid_name)
         = ["Error: quota exceeded"]).
Proof.
  pose proof (saveInstanceOptions_two_steps storage_ok one_valid_name)
    as (Hok_calls & _ & Hok_status & _).
  pose proof (saveInstanceOptions_two_steps permission_denied one_valid_name)
    as (_ & Hdenied & _).
  pose proof (saveInstanceOptions_two_steps storage_full one_valid_name)
    as (_ & _ & _ & Hfull).
  split; [|split].
  - exact (conj eq_refl (conj eq_refl
             (conj (Hok_calls eq_refl) (Hok_status eq_refl eq_refl)))).
  - exact (conj eq_refl (Hdenied _ eq_refl)).
  - exact (conj eq_refl (Hfull _ eq_refl eq_refl)).
Defined.

(** C10: neither save method changes the two lists of the controller,
    however the persistence calls settle. *)
Theorem save_methods_frame (env : Persistence) (this : Options.t) :
  (Options.instances (Options.state_after (Options.saveInstanceOptions env) this)
   = Options.instances this
   /\ Options.groupNames
        (Options.state_after (Options.saveInstanceOptions env) this)
      = Options.groupNames this)
  /\ (Options.instances
        (Options.state_after (Options.saveGroupNameOptions env) this)
      = Options.instances this
      /\ Options.groupNames
           (Options.state_after (Options.saveGroupNameOptions env) this)
         = Options.groupNames this).
Proof.
  unfold Options.state_after.
  rewrite saveInstanceOptions_run, saveGroupNameOptions_run.
  repeat split.
Qed.

(** ** Loading *)

(** C8: when the fetch of the stored options fails, [loadOptions] hands the
    failure on: its promise is rejected with the same error, no status text
    is written, and the two lists are as before. *)
Theorem loadOptions_fetch_failure (env : Persistence) (this : Options.t)
        (e : error) :
  fetchOptions_settles env = Rejected e ->
  Options.completion_of (Options.loadOptions env) this = Normal (Rejected e)
  /\ status_texts (Options.effects_of (Options.loadOptions env) this) = []
  /\ Options.instances (Options.state_after (Options.loadOptions env) this)
     = Options.instances this
  /\ Options.groupNames (Options.state_after (Options.loadOptions env) this)
     = Options.groupNames this.
Proof.
  intros Hfetch.
  unfold Options.completion_of, Options.effects_of, Options.state_after.
  rewrite (loadOptions_rejected env this e Hfetch).
  repeat split.
Qed.

Lemma loadOptions_fetch_failure_witness :
  fetchOptions_settles storage_full = Rejected (Error "storage unavailable")
  /\ Options.completion_of (Options.loadOptions storage_full) one_valid_name
     = Normal (Rejected (Error "storage unavailable"))
  /\ status_texts (Options.effects_of (Options.loadOptions storage_full)
                                      one_valid_name) = []
  /\ Options.instances
       (Options.state_after (Options.loadOptions storage_full) one_valid_name)
     = Options.instances one_valid_name
  /\ Options.groupNames
       (Options.state_after (Options.loadOptions storage_full) one_valid_name)
     = Options.groupNames one_valid_name.
Proof.
  split; [reflexivity|].
  exact (loadOptions_fetch_failure storage_full one_valid_name _ eq_refl).
Defined.

(** C6: from the empty model, loading the stored document with the one
    instance [{host: "https://a.example", name: "A", enabled: true}] and
    the one group name "team-x" gives a model with exactly that instance
    and exactly that group name. *)
Theorem loadOptions_round_trip
        (setAllowedOrigins_settles : list string -> settled unit)
        (saveOptions_settles : OptionsDocument.t -> settled unit) :
  let env := {| fetchOptions_settles := Resolved stored_document;
                setAllowedOrigins_settles := setAllowedOrigins_settles;
                saveOptions_settles := saveOptions_settles |} in
  let this := Options.state_after (Options.loadOptions env) Options.constructor in
  Options.completion_of (Options.loadOptions env) Options.constructor
  = Normal (Resolved tt)
  /\ Options.instances this
     = [ {| GerritInstance.host := "https://a.example";
            GerritInstance.name := "A";
            GerritInstance.enabled := true |} ]
  /\ Options.groupNames this = ["team-x"]
  /\ document_of this = stored_document.
Proof. repeat split. Qed.

(** ** Adding instances *)

Lemma addGerritInstance_found (host name : string) (enabled : bool)
      (this : Options.t) (i : nat) (instance : GerritInstance.t) :
  list_find (fun instance => GerritInstance.host instance = host)
            (Options.instances_ this) = Some (i, instance) ->
  Options.addGerritInstance host name enabled this
  = (Normal tt,
     Options.update_instance i (set_name_enabled name) this,
     [SetChecked ("instance-" +:+ pretty i) "true"]).
Proof.
  intros Hfind. unfold Options.addGerritInstance, Options.bind at 1.
  unfold Options.get at 1. now rewrite Hfind.
Qed.

Lemma addGerritInstance_not_found (host name : string) (enabled : bool)
      (this : Options.t) :
  list_find (fun instance => GerritInstance.host instance = host)
            (Options.instances_ this) = None ->
  Options.state_after (Options.addGerritInstance host name enabled) this
  = Options.push_instance {| GerritInstance.host := host;
                             GerritInstance.name := name;
                             GerritInstance.enabled := enabled |} this.
Proof.
  intros Hfind.
  unfold Options.state_after, Options.addGerritInstance, Options.bind at 1.
  unfold Options.get at 1. now rewrite Hfind.
Qed.

Lemma with_host_none (host : string) (l : list GerritInstance.t) :
  host ∉ GerritInstance.host <$> l -> with_host host l = [].
Proof.
  induction l as [|x l IH]; intros Hnot; [reflexivity|].
  unfold with_host in *. rewrite fmap_cons, not_elem_of_cons in Hnot.
  destruct Hnot as [Hne Hnot]. rewrite filter_cons_False by congruence. auto.
Qed.

(** The scan finds the instance of a host, the update keeps every host,
    and the updated instance is the only one of its host. *)
Lemma alter_found (host : string) (f : GerritInstance.t -> GerritInstance.t)
      (l : list GerritInstance.t) (i : nat) (x : GerritInstance.t) :
  (forall y, GerritInstance.host (f y) = GerritInstance.host y) ->
  NoDup (GerritInstance.host <$> l) ->
  list_find (fun instance => GerritInstance.host instance = host) l = Some (i, x) ->
  GerritInstance.host <$> alter f i l = GerritInstance.host <$> l
  /\ with_host host (alter f i l) = [f x]
  /\ forall host', host' <> host -> with_host host' (alter f i l) = with_host host' l.
Proof.
  intros Hf. revert i. induction l as [|y l IH]; intros i Hnodup Hfind.
  - discriminate.
  - rewrite fmap_cons in Hnodup. apply NoDup_cons in Hnodup as [Hy Hnodup].
    cbn in Hfind. destruct (decide (GerritInstance.host y = host)) as [Heq|Hne].
    + injection Hfind as <- <-.
      change (alter f 0 (y :: l)) with (f y :: l).
      rewrite !fmap_cons, Hf. split; [reflexivity|].
      unfold with_host. split.
      * rewrite filter_cons_True by (rewrite Hf; exact Heq).
        f_equal. apply with_host_none. now rewrite <- Heq.
      * intros host' Hne'.
        rewrite !filter_cons_False; [reflexivity| |]; rewrite ?Hf; congruence.
    + destruct (list_find _ l) as [[j z]|] eqn:Hl; [|discriminate].
      injection Hfind as <- <-.
      destruct (IH j Hnodup eq_refl) as (Hhosts & Hwith & Hother).
      change (alter f (S j) (y :: l)) with (y :: alter f j l).
      rewrite !fmap_cons, Hhosts. split; [reflexivity|].
      unfold with_host in *. split.
      * rewrite filter_cons_False by exact Hne. exact Hwith.
      * intros host' Hne'.
        destruct (decide (GerritInstance.host y = host')) as [Hy'|Hy'].
        -- rewrite !filter_cons_True by exact Hy'. f_equal. now apply Hother.
        -- rewrite !filter_cons_False by exact Hy'. now apply Hother.
Qed.

Lemma with_host_app (host : string) (l1 l2 : list GerritInstance.t) :
  with_host host (l1 ++ l2) = with_host host l1 ++ with_host host l2.
Proof. apply filter_app. Qed.

Lemma find_host_None (host : string) (l : list GerritInstance.t) :
  list_find (fun instance => GerritInstance.host instance = host) l = None
  <-> host ∉ GerritInstance.host <$> l.
Proof.
  rewrite list_find_None, Forall_forall, list_elem_of_fmap. split.
  - intros Hall (y & -> & Hin). now apply (Hall y).
  - intros Hnot y Hin Heq. apply Hnot. exists y. split; [now symmetry|exact Hin].
Qed.

Lemma find_host_Some (host : string) (l : list GerritInstance.t) :
  host ∈ GerritInstance.host <$> l ->
  exists i x, list_find (fun instance => GerritInstance.host instance = host) l
              = Some (i, x).
Proof.
  intros Hin.
  destruct (list_find _ l) as [[i x]|] eqn:Hfind; [eauto|].
  now apply find_host_None in Hfind.
Qed.

(** One call of [addGerritInstance] on a model with unique hosts: hosts
    stay unique, the host is present afterwards with the given name, it is
    enabled if it was already there and has the given flag if it is new,
    and the instances of the other hosts are untouched. *)
Lemma addGerritInstance_spec (host name : string) (enabled : bool)
      (this : Options.t) :
  NoDup (hosts this) ->
  let this' := Options.state_after
                 (Options.addGerritInstance host name enabled) this in
  NoDup (hosts this')
  /\ host ∈ hosts this'
  /\ with_host host (Options.instances_ this')
     = [ {| GerritInstance.host := host;
            GerritInstance.name := name;
            GerritInstance.enabled :=
              if bool_decide (host ∈ hosts this) then true else enabled |} ]
  /\ forall host', host' <> host ->
       with_host host' (Options.instances_ this')
       = with_host host' (Options.instances_ this).
Proof.
  intros Hnodup this'. subst this'. unfold hosts in *.
  destruct (list_find (fun instance => GerritInstance.host instance = host)
                      (Options.instances_ this)) as [[i x]|] eqn:Hfind.
  - unfold Options.state_after.
    rewrite (addGerritInstance_found _ _ _ _ _ _ Hfind). cbn.
    destruct (alter_found host (set_name_enabled name) _ i x
                (fun y => eq_refl) Hnodup Hfind) as (Hhosts & Hwith & Hother).
    apply list_find_Some in Hfind as (Hlookup & Hx & _).
    assert (Hin : host ∈ GerritInstance.host <$> Options.instances_ this).
    { apply list_elem_of_fmap. exists x. split; [now symmetry|].
      now apply list_elem_of_lookup_2 in Hlookup. }
    unfold with_host in *.
    rewrite Hhosts, Hwith, bool_decide_eq_true_2 by exact Hin.
    unfold set_name_enabled. rewrite Hx. auto.
  - rewrite (addGerritInstance_not_found _ _ _ _ Hfind).
    unfold Options.push_instance. cbn [Options.instances_].
    apply find_host_None in Hfind.
    rewrite fmap_app, bool_decide_eq_false_2 by exact Hfind.
    simpl (_ <$> [_]).
    split; [|split; [|split]].
    + apply NoDup_app. split; [exact Hnodup|]. split.
      * intros h Hh Hsingle. apply list_elem_of_singleton in Hsingle. congruence.
      * apply NoDup_singleton.
    + apply elem_of_app. right. apply list_elem_of_singleton. reflexivity.
    + rewrite with_host_app, with_host_none by exact Hfind.
      unfold with_host. now rewrite filter_cons_True.
    + intros host' Hne. rewrite with_host_app. unfold with_host at 2.
      rewrite filter_cons_False by (cbn; congruence).
      now rewrite filter_nil, app_nil_r.
Qed.

(** C1, as stated, fails: a second call with [enabled = false] for a host
    that is already there leaves the instance enabled. *)
Lemma second_call_does_not_disable :
  ~ second_call_decides Options.constructor "https://a.example" "A" true "B" false.
Proof. unfold second_call_decides. vm_compute. discriminate. Qed.

(** C1, amended: on a model with unique hosts, two calls of
    [addGerritInstance] with the same host leave exactly one instance of
    that host, with the name of the second call and [enabled = true]
    whatever flag the second call passes; two calls with different hosts
    leave exactly one instance of each, and the two differ. *)
Theorem addGerritInstance_twice (this : Options.t) :
  NoDup (hosts this) ->
  (forall host name1 enabled1 name2 enabled2,
      with_host host
        (Options.instances
           (two_calls host name1 enabled1 host name2 enabled2 this))
      = [ {| GerritInstance.host := host;
             GerritInstance.name := name2;
             GerritInstance.enabled := true |} ])
  /\ (forall host1 name1 enabled1 host2 name2 enabled2,
         host1 <> host2 ->
         exists instance1 instance2,
           with_host host1
             (Options.instances
                (two_calls host1 name1 enabled1 host2 name2 enabled2 this))
           = [instance1]
           /\ with_host host2
                (Options.instances
                   (two_calls host1 name1 enabled1 host2 name2 enabled2 this))
              = [instance2]
           /\ instance1 <> instance2
           /\ GerritInstance.name instance1 = name1
           /\ GerritInstance.name instance2 = name2).
Proof.
  intros Hnodup. unfold two_calls, Options.instances. split.
  - intros host name1 enabled1 name2 enabled2.
    destruct (addGerritInstance_spec host name1 enabled1 this Hnodup)
      as (Hnodup1 & Hin1 & _).
    destruct (addGerritInstance_spec host name2 enabled2 _ Hnodup1)
      as (_ & _ & Hwith & _).
    rewrite Hwith. now rewrite bool_decide_eq_true_2 by exact Hin1.
  - intros host1 name1 enabled1 host2 name2 enabled2 Hne.
    destruct (addGerritInstance_spec host1 name1 enabled1 this Hnodup)
      as (Hnodup1 & _ & Hwith1 & _).
    destruct (addGerritInstance_spec host2 name2 enabled2 _ Hnodup1)
      as (_ & _ & Hwith2 & Hother).
    eexists _, _. split; [|split; [|split; [|split]]].
    + rewrite (Hother host1 Hne). exact Hwith1.
    + exact Hwith2.
    + intros Heq. apply (f_equal GerritInstance.host) in Heq. contradiction.
    + reflexivity.
    + reflexivity.
Qed.

Lemma addGerritInstance_twice_witness :
  NoDup (hosts Options.constructor)
  /\ with_host "https://a.example"
       (Options.instances
          (two_calls "https://a.example" "A" false "https://a.example" "B" false
                     Options.constructor))
     = [ {| GerritInstance.host := "https://a.example";
            GerritInstance.name := "B";
            GerritInstance.enabled := true |} ].
Proof.
  split; [apply NoDup_nil_2|].
  exact (proj1 (addGerritInstance_twice Options.constructor (NoDup_nil_2))
               "https://a.example" "A" false "B" false).
Defined.

(** From the empty model, two calls with different hosts give the two
    instances as they were passed, in the order of the calls. *)
Lemma addGerritInstance_two_hosts_from_empty
      (host1 name1 : string) (enabled1 : bool)
      (host2 name2 : string) (enabled2 : bool) :
  host1 <> host2 ->
  Options.instances
    (two_calls host1 name1 enabled1 host2 name2 enabled2 Options.constructor)
  = [ {| GerritInstance.host := host1;
         GerritInstance.name := name1;
         GerritInstance.enabled := enabled1 |};
      {| GerritInstance.host := host2;
         GerritInstance.name := name2;
         GerritInstance.enabled := enabled2 |} ].
Proof.
  intros Hne. unfold two_calls.
  rewrite (addGerritInstance_not_found host1) by reflexivity.
  rewrite (addGerritInstance_not_found host2); [reflexivity|].
  cbn. now rewrite decide_False by congruence.
Qed.

(** ** Adding group names *)

Lemma addGroupName_scan (groupName : string) (names : list string)
      (this : Options.t) :
  Options.forEach names
    (fun this_ name =>
       if String.eqb name groupName
       then Options.on this_ "setStatusText"
              (Options.setStatusText "Already have this group name" None)
       else Options.ret tt)
    this_undefined this
  = (if bool_decide (groupName ∈ names)
     then Throw undefined_setStatusText else Normal tt, this, []).
Proof.
  induction names as [|name rest IH]; [reflexivity|].
  cbn [Options.forEach]. unfold Options.bind at 1.
  destruct (String.eqb_spec name groupName) as [->|Hne].
  - rewrite bool_decide_eq_true_2 by apply list_elem_of_here. reflexivity.
  - cbn. rewrite IH.
    rewrite (bool_decide_ext (groupName ∈ name :: rest) (groupName ∈ rest)).
    + now destruct (bool_decide _).
    + rewrite elem_of_cons. split; [intros [?|?]; congruence | auto].
Qed.

(** A name that is already there: the scan throws before a status text is
    written, and the call leaves the model as it was. *)
Lemma addGroupName_present (groupName : string) (this : Options.t) :
  groupName ∈ Options.groupNames_ this ->
  Options.addGroupName groupName this = (Throw undefined_setStatusText, this, []).
Proof.
  intros Hin. unfold Options.addGroupName, Options.bind at 1.
  unfold Options.get at 1. unfold Options.bind at 1.
  rewrite addGroupName_scan, bool_decide_eq_true_2 by exact Hin. reflexivity.
Qed.

(** A new name is appended. *)
Lemma addGroupName_absent (groupName : string) (this : Options.t) :
  groupName ∉ Options.groupNames_ this ->
  Options.addGroupName groupName this
  = (Normal tt, Options.push_groupName groupName this,
     [AppendGroupNameItem groupName]).
Proof.
  intros Hnot. unfold Options.addGroupName, Options.bind at 1.
  unfold Options.get at 1. unfold Options.bind at 1.
  rewrite addGroupName_scan, bool_decide_eq_false_2 by exact Hnot. reflexivity.
Qed.

(** Whatever the call does, no name is stored twice and the instances are
    not touched. *)
Lemma addGroupName_NoDup (groupName : string) (this : Options.t) :
  NoDup (Options.groupNames_ this) ->
  NoDup (Options.groupNames_
           (Options.state_after (Options.addGroupName groupName) this))
  /\ Options.instances_
       (Options.state_after (Options.addGroupName groupName) this)
     = Options.instances_ this.
Proof.
  intros Hnodup. unfold Options.state_after.
  destruct (decide (groupName ∈ Options.groupNames_ this)) as [Hin|Hnot].
  - rewrite addGroupName_present by exact Hin. now split.
  - rewrite addGroupName_absent by exact Hnot. split; [|reflexivity].
    cbn. apply NoDup_app. split; [exact Hnodup|]. split.
    + intros g Hg Hsingle. apply list_elem_of_singleton in Hsingle. congruence.
    + apply NoDup_singleton.
Qed.

Lemma addGroupName_sequence_NoDup (names : list string) (this : Options.t) :
  NoDup (Options.groupNames_ this) ->
  NoDup (Options.groupNames_
           (foldl (fun this groupName =>
                     Options.state_after (Options.addGroupName groupName) this)
                  this names)).
Proof.
  revert this. induction names as [|g rest IH]; intros this Hnodup; cbn.
  - exact Hnodup.
  - apply IH. now apply addGroupName_NoDup.
Qed.

(** C2: a second [addGroupName] of a stored name stores nothing, but it
    does not write the status text either: the scan's callback is called
    with [this] undefined, so [this.setStatusText] throws a TypeError and
    the call ends there. *)
Theorem addGroupName_duplicate_throws :
  Options.addGroupName "team-x" one_valid_name
  = (Throw undefined_setStatusText, one_valid_name, [])
  /\ status_texts
       (Options.effects_of (Options.addGroupName "team-x") one_valid_name) = []
  /\ Options.groupNames
       (Options.state_after (Options.addGroupName "team-x") one_valid_name)
     = ["team-x"].
Proof. repeat split. Qed.

(** C3: the group-name expression of the configuration accepts
    "foo@bar.baz", and it accepts "foo/bar" too, which the click listener
    then stores without a status text: in the template literal the
    backslash before the dot is dropped, so the dot matches any character.
    The pattern of the specification, with the escaped dot, rejects
    "foo/bar". *)
Theorem GROUP_NAME_REGEXP_accepts_slash :
  RegExp.exec config.GROUP_NAME_REGEXP "foo@bar.baz" <> None
  /\ RegExp.exec config.GROUP_NAME_REGEXP "foo/bar" <> None
  /\ Options.on_add_group_click "foo/bar" Options.constructor
     = (Normal tt,
        {| Options.instances_ := []; Options.groupNames_ := ["foo/bar"] |},
        [AppendGroupNameItem "foo/bar"; SetValue "add-group-name" ""])
  /\ config.GROUP_NAME_PATTERN
     = "[a-zA-Z0-9_-]+@*[a-zA-Z0-9_-]+.*[a-zA-Z0-9_-]+"
  /\ RegExp.exec spec_GROUP_NAME_REGEXP "foo@bar.baz" <> None
  /\ RegExp.exec spec_GROUP_NAME_REGEXP "foo/bar" = None
  /\ config.GROUP_NAME_REGEXP <> spec_GROUP_NAME_REGEXP.
Proof.
  repeat split; try (vm_compute; discriminate).
Qed.

(** ** The allowed origins *)

Lemma allowed_origins_request (env : Persistence) (this : Options.t) :
  allowed_origins_requests
    (Options.effects_of (Options.saveInstanceOptions env) this)
  = [Options.allowed_origins (Options.instances_ this)].
Proof.
  unfold Options.effects_of. rewrite saveInstanceOptions_run. cbn.
  destruct (setAllowedOrigins_settles env _); [|reflexivity].
  destruct (saveOptions_settles env _); reflexivity.
Qed.

(** C4, as stated, fails: the request holds each origin with "/*" after
    it, not the origin; and read with that suffix, it still holds the
    origin of a disabled instance when an enabled one has the same. *)
Lemma request_is_not_the_enabled_origins :
  ~ requests_enabled_origins_only (fun origin => origin) storage_ok shared_origin
  /\ ~ requests_enabled_origins_only (fun origin => origin +:+ "/*")
         storage_ok shared_origin.
Proof.
  split; intros (origins & Hrequest & Hexactly & Hdisabled);
    rewrite allowed_origins_request in Hrequest; injection Hrequest as <-.
  - assert (Hin : In "https://a.example"
                     (Options.allowed_origins (Options.instances_ shared_origin))).
    { apply Hexactly. eexists _, _.
      split; [left; reflexivity|]. repeat split. }
    vm_compute in Hin. destruct Hin as [Hin|[]]. discriminate.
  - eapply Hdisabled.
    + right; left; reflexivity.
    + reflexivity.
    + reflexivity.
    + vm_compute. left. reflexivity.
Qed.

(** C4, amended: the list [saveInstanceOptions] passes to
    [setAllowedOrigins] has, in the order of the instances, one entry for
    each enabled instance whose host has an origin, that origin followed
    by "/*", and nothing else: every entry comes from an enabled instance,
    none from a disabled one. *)
Theorem saveInstanceOptions_allowed_origins (env : Persistence)
        (this : Options.t) :
  let origins := Options.allowed_origins (Options.instances_ this) in
  allowed_origins_requests
    (Options.effects_of (Options.saveInstanceOptions env) this) = [origins]
  /\ origins
     = concat (map (fun instance =>
                      if GerritInstance.enabled instance then
                        match origin_of (GerritInstance.host instance) with
                        | Some origin => [origin +:+ "/*"]
                        | None => []
                        end
                      else [])
                   (Options.instances_ this))
  /\ (forall x, In x origins <->
                exists instance origin,
                  In instance (Options.instances_ this)
                  /\ GerritInstance.enabled instance = true
                  /\ origin_of (GerritInstance.host instance) = Some origin
                  /\ x = origin +:+ "/*").
Proof.
  intros origins. subst origins.
  split; [apply allowed_origins_request|].
  assert (Hlist : Options.allowed_origins (Options.instances_ this)
     = concat (map (fun instance =>
                      if GerritInstance.enabled instance then
                        match origin_of (GerritInstance.host instance) with
                        | Some origin => [origin +:+ "/*"]
                        | None => []
                        end
                      else [])
                   (Options.instances_ this))).
  { rewrite allowed_origins_entries. f_equal. apply List.map_ext.
    apply origin_entries_origin_of. }
  split; [exact Hlist|].
  intros x. rewrite Hlist, List.in_concat. split.
  - intros (entries & Hentries & Hx).
    apply List.in_map_iff in Hentries as (instance & <- & Hinstance).
    destruct (GerritInstance.enabled instance) eqn:Henabled; [|destruct Hx].
    destruct (origin_of (GerritInstance.host instance)) as [origin|] eqn:Horigin;
      [|destruct Hx].
    destruct Hx as [<-|[]]. exists instance, origin. auto.
  - intros (instance & origin & Hinstance & Henabled & Horigin & ->).
    eexists. split.
    + apply List.in_map_iff. exists instance. split; [reflexivity|exact Hinstance].
    + cbn beta. rewrite Henabled, Horigin. now left.
Qed.



(** ** What every reachable model satisfies *)

Section Preservation.

Variable P : Options.t -> Prop.

Lemma preserves_ret {A : Type} (a : A) : preserves P (Options.ret a).
Proof. now intros this. Qed.

Lemma preserves_throw {A : Type} (e : error) :
  preserves P (Options.throw (A := A) e).
Proof. now intros this. Qed.

Lemma preserves_emit (e : effect) : preserves P (Options.emit e).
Proof. now intros this. Qed.

Lemma preserves_get : preserves P Options.get.
Proof. now intros this. Qed.

Lemma preserves_bind {A B : Type} (c : Options.M A) (f : A -> Options.M B) :
  preserves P c -> (forall a, preserves P (f a)) -> preserves P (Options.bind c f).
Proof.
  intros Hc Hf this HP. specialize (Hc this HP).
  unfold Options.state_after, Options.bind in *.
  destruct (c this) as [[[a|e] this'] effects]; cbn in *; [|exact Hc].
  specialize (Hf a this' Hc). unfold Options.state_after in Hf.
  now destruct (f a this') as [[b this''] effects'].
Qed.

Lemma preserves_on {A : Type} (this_ : this_binding) (method_name : string)
      (method : Options.M A) :
  preserves P method -> preserves P (Options.on this_ method_name method).
Proof. destruct this_; [intros _; apply preserves_throw|auto]. Qed.

Lemma preserves_forEach {A : Type} (array : list A)
      (callback : this_binding -> A -> Options.M unit) (thisArg : this_binding) :
  (forall x, preserves P (callback thisArg x)) ->
  preserves P (Options.forEach array callback thisArg).
Proof.
  intros Hcallback. induction array as [|x rest IH]; cbn.
  - apply preserves_ret.
  - apply preserves_bind; auto.
Qed.

Lemma preserves_then {A B : Type} (promise : Options.Promise A)
      (onFulfilled : A -> Options.M B) :
  preserves P promise -> (forall a, preserves P (onFulfilled a)) ->
  preserves P (Options.then_ promise onFulfilled).
Proof.
  intros Hpromise Hreaction this HP. specialize (Hpromise this HP).
  unfold Options.state_after, Options.then_ in *.
  destruct (promise this) as [[[[a|e]|e] this'] effects]; cbn in *;
    try exact Hpromise.
  specialize (Hreaction a this' Hpromise). unfold Options.state_after in Hreaction.
  now destruct (onFulfilled a this') as [[[b|e] this''] effects'].
Qed.

Lemma preserves_then_promise {A B : Type} (promise : Options.Promise A)
      (onFulfilled : A -> Options.Promise B) :
  preserves P promise -> (forall a, preserves P (onFulfilled a)) ->
  preserves P (Options.then_promise promise onFulfilled).
Proof.
  intros Hpromise Hreaction this HP. specialize (Hpromise this HP).
  unfold Options.state_after, Options.then_promise in *.
  destruct (promise this) as [[[[a|e]|e] this'] effects]; cbn in *;
    try exact Hpromise.
  specialize (Hreaction a this' Hpromise). unfold Options.state_after in Hreaction.
  now destruct (onFulfilled a this') as [[[b|e] this''] effects'].
Qed.

Lemma preserves_catch {A : Type} (promise : Options.Promise A)
      (onRejected : error -> Options.M A) :
  preserves P promise -> (forall e, preserves P (onRejected e)) ->
  preserves P (Options.catch_ promise onRejected).
Proof.
  intros Hpromise Hreaction this HP. specialize (Hpromise this HP).
  unfold Options.state_after, Options.catch_ in *.
  destruct (promise this) as [[[[a|e]|e] this'] effects]; cbn in *;
    try exact Hpromise.
  specialize (Hreaction e this' Hpromise). unfold Options.state_after in Hreaction.
  now destruct (onRejected e this') as [[[b|e'] this''] effects'].
Qed.

End Preservation.

Lemma hosts_alter (f : GerritInstance.t -> GerritInstance.t)
      (l : list GerritInstance.t) (i : nat) :
  (forall y, GerritInstance.host (f y) = GerritInstance.host y) ->
  GerritInstance.host <$> alter f i l = GerritInstance.host <$> l.
Proof.
  intros Hf. revert i. induction l as [|y l IH]; intros i; [reflexivity|].
  destruct i as [|i].
  - change (alter f 0 (y :: l)) with (f y :: l). now rewrite !fmap_cons, Hf.
  - change (alter f (S i) (y :: l)) with (y :: alter f i l).
    now rewrite !fmap_cons, IH.
Qed.

Lemma addGerritInstance_groupNames (host name : string) (enabled : bool)
      (this : Options.t) :
  Options.groupNames_
    (Options.state_after (Options.addGerritInstance host name enabled) this)
  = Options.groupNames_ this.
Proof.
  destruct (list_find (fun instance => GerritInstance.host instance = host)
                      (Options.instances_ this)) as [[i x]|] eqn:Hfind.
  - unfold Options.state_after.
    now rewrite (addGerritInstance_found _ _ _ _ _ _ Hfind).
  - now rewrite (addGerritInstance_not_found _ _ _ _ Hfind).
Qed.

Lemma addGerritInstance_unique (host name : string) (enabled : bool) :
  preserves unique (Options.addGerritInstance host name enabled).
Proof.
  intros this [Hhosts Hnames]. split.
  - now apply addGerritInstance_spec.
  - now rewrite addGerritInstance_groupNames.
Qed.

Lemma addGroupName_unique (groupName : string) :
  preserves unique (Options.addGroupName groupName).
Proof.
  intros this [Hhosts Hnames].
  destruct (addGroupName_NoDup groupName this Hnames) as [Hnames' Hinstances].
  split; [|exact Hnames']. unfold hosts. now rewrite Hinstances.
Qed.

Lemma on_checkbox_change_unique (instance_index : nat) (checked : bool) :
  preserves unique (Options.on_checkbox_change instance_index checked).
Proof.
  intros this [Hhosts Hnames]. split; [|exact Hnames].
  unfold hosts in *. cbn. now rewrite hosts_alter.
Qed.

Lemma loadOptions_fulfilled_unique (options : OptionsDocument.t) :
  preserves unique (Options.loadOptions_fulfilled options).
Proof.
  unfold Options.loadOptions_fulfilled, Options.bind_this.
  apply preserves_bind; [|intros _]; apply preserves_on;
    apply preserves_forEach; intros x; apply preserves_on.
  - apply addGerritInstance_unique.
  - apply addGroupName_unique.
Qed.

Lemma loadOptions_unique (env : Persistence) :
  preserves unique (Options.loadOptions env).
Proof.
  apply preserves_then.
  - apply preserves_bind; [apply preserves_emit|intros; apply preserves_ret].
  - apply loadOptions_fulfilled_unique.
Qed.

Lemma dispatch_unique (env : Persistence) (e : event) :
  preserves unique (dispatch env e).
Proof.
  destruct e as [|value|host_value name_value|instance_index checked| | | ];
    cbn [dispatch].
  - destruct (fetchOptions_settles env) as [options|reason].
    + apply loadOptions_fulfilled_unique.
    + apply preserves_ret.
  - unfold Options.on_add_group_click.
    destruct (RegExp.exec config.GROUP_NAME_REGEXP value).
    + apply preserves_bind; [apply addGroupName_unique|intros; apply preserves_emit].
    + now intros this.
  - unfold Options.on_add_instance_click.
    destruct (_ && _).
    + apply preserves_bind; [apply addGerritInstance_unique|intros _].
      apply preserves_bind; intros; apply preserves_emit.
    + now intros this.
  - apply on_checkbox_change_unique.
  - apply preserves_bind; [apply preserves_emit|intros _].
    intros this Hunique. unfold Options.state_after, Options.bind.
    now rewrite saveInstanceOptions_run.
  - apply preserves_bind; [apply preserves_emit|intros _].
    intros this Hunique. unfold Options.state_after.
    now rewrite saveGroupNameOptions_run.
  - now intros this.
Qed.

Lemma run_unique (env : Persistence) (events : list event) (this : Options.t) :
  unique this -> unique (run env events this).
Proof.
  unfold run. revert this.
  induction events as [|e rest IH]; intros this Hunique; cbn; [exact Hunique|].
  apply IH. now apply dispatch_unique.
Qed.

(** X1: whatever the browser does with the page after [onLoaded] (the load
    settling, clicks on the add and save buttons with any field contents,
    checkbox changes, timers, in any order), no host and no group name is
    ever in the model twice. *)
Theorem reachable_unique (env : Persistence) (this : Options.t) :
  reachable env this -> unique this.
Proof.
  intros [events ->]. apply run_unique. split; apply NoDup_nil_2.
Qed.

(** ** Sequencing *)

Lemma bind_normal {A B : Type} (c : Options.M A) (f : A -> Options.M B)
      (this this' : Options.t) (a : A) (effects : list effect) :
  c this = (Normal a, this', effects) ->
  Options.bind c f this
  = (Options.completion_of (f a) this', Options.state_after (f a) this',
     effects ++ Options.effects_of (f a) this').
Proof.
  intros Hc. unfold Options.bind, Options.completion_of, Options.state_after,
    Options.effects_of. rewrite Hc. now destruct (f a this') as [[b this''] e'].
Qed.

Lemma bind_throw {A B : Type} (c : Options.M A) (f : A -> Options.M B)
      (this this' : Options.t) (e : error) (effects : list effect) :
  c this = (Throw e, this', effects) ->
  Options.bind c f this = (Throw e, this', effects).
Proof. intros Hc. unfold Options.bind. now rewrite Hc. Qed.

Lemma run_triple {A : Type} (c : Options.M A) (this : Options.t) :
  c this = (Options.completion_of c this, Options.state_after c this,
            Options.effects_of c this).
Proof.
  unfold Options.completion_of, Options.state_after, Options.effects_of.
  now destruct (c this) as [[a this'] effects].
Qed.

(** ** One call of [addGerritInstance], in full *)

Lemma addGerritInstance_new (host name : string) (enabled : bool)
      (this : Options.t) :
  host ∉ hosts this ->
  Options.addGerritInstance host name enabled this
  = (Normal tt,
     Options.push_instance {| GerritInstance.host := host;
                              GerritInstance.name := name;
                              GerritInstance.enabled := enabled |} this,
     let id := "instance-" +:+ pretty (length (Options.instances_ this)) in
     [AppendInstanceRow name host id enabled;
      AddEventListener id "change"
        (checkbox_change (length (Options.instances_ this)));
      SetLabelFor name id; SetLabelFor host id]).
Proof.
  intros Hnew. apply find_host_None in Hnew.
  unfold Options.addGerritInstance, Options.bind at 1.
  unfold Options.get at 1. rewrite Hnew.
  unfold Options.bind, Options.modify, Options.get, Options.emit,
    Options.push_instance. cbn [Options.instances_].
  rewrite length_app. cbn [length].
  replace (length (Options.instances_ this) + 1 - 1)
    with (length (Options.instances_ this)) by lia.
  reflexivity.
Qed.

Lemma addGerritInstance_returns (host name : string) (enabled : bool)
      (this : Options.t) :
  Options.completion_of (Options.addGerritInstance host name enabled) this
  = Normal tt.
Proof.
  unfold Options.completion_of.
  destruct (list_find (fun instance => GerritInstance.host instance = host)
                      (Options.instances_ this)) as [[i x]|] eqn:Hfind.
  - now rewrite (addGerritInstance_found _ _ _ _ _ _ Hfind).
  - apply find_host_None in Hfind. now rewrite addGerritInstance_new.
Qed.

(** ** Loading, in general *)

Lemma applyInstanceOptions_cons (instance : GerritInstance.t)
      (rest : list GerritInstance.t) (this : Options.t) :
  Options.applyInstanceOptions (instance :: rest) this
  = Options.bind
      (Options.addGerritInstance (GerritInstance.host instance)
                                 (GerritInstance.name instance)
                                 (GerritInstance.enabled instance))
      (fun _ => Options.applyInstanceOptions rest) this.
Proof. reflexivity. Qed.

Lemma applyGroupNameOptions_cons (groupName : string) (rest : list string)
      (this : Options.t) :
  Options.applyGroupNameOptions (groupName :: rest) this
  = Options.bind (Options.addGroupName groupName)
                 (fun _ => Options.applyGroupNameOptions rest) this.
Proof. reflexivity. Qed.

(** Restoring instances never throws. *)
Lemma applyInstanceOptions_returns (instances : list GerritInstance.t)
      (this : Options.t) :
  Options.completion_of (Options.applyInstanceOptions instances) this = Normal tt.
Proof.
  revert this. induction instances as [|instance rest IH]; intros this;
    [reflexivity|].
  unfold Options.completion_of. rewrite applyInstanceOptions_cons.
  pose proof (addGerritInstance_returns (GerritInstance.host instance)
                (GerritInstance.name instance)
                (GerritInstance.enabled instance) this) as Hreturns.
  rewrite (bind_normal _ _ this _ tt _ ltac:(rewrite run_triple, Hreturns;
                                             reflexivity)).
  apply IH.
Qed.

Lemma applyInstanceOptions_groupNames (instances : list GerritInstance.t)
      (this : Options.t) :
  Options.groupNames_
    (Options.state_after (Options.applyInstanceOptions instances) this)
  = Options.groupNames_ this.
Proof.
  revert this. induction instances as [|instance rest IH]; intros this;
    [reflexivity|].
  unfold Options.state_after. rewrite applyInstanceOptions_cons.
  pose proof (addGerritInstance_returns (GerritInstance.host instance)
                (GerritInstance.name instance)
                (GerritInstance.enabled instance) this) as Hreturns.
  rewrite (bind_normal _ _ this _ tt _ ltac:(rewrite run_triple, Hreturns;
                                             reflexivity)).
  cbn [fst snd]. rewrite IH. apply addGerritInstance_groupNames.
Qed.

(** Instances of hosts that are new and differ from each other are
    appended as they are. *)
Lemma applyInstanceOptions_fresh (instances : list GerritInstance.t) :
  forall this,
    NoDup (hosts this ++ (GerritInstance.host <$> instances)) ->
    Options.instances_
      (Options.state_after (Options.applyInstanceOptions instances) this)
    = Options.instances_ this ++ instances.
Proof.
  induction instances as [|instance rest IH]; intros this Hnodup.
  - cbn. now rewrite app_nil_r.
  - unfold Options.state_after. rewrite applyInstanceOptions_cons.
    assert (Hnew : GerritInstance.host instance ∉ hosts this).
    { apply NoDup_app in Hnodup as (_ & Hdisjoint & _).
      intros Hin. apply (Hdisjoint _ Hin). rewrite fmap_cons. left. }
    rewrite (bind_normal _ _ this _ tt _
               (addGerritInstance_new _ _ _ this Hnew)).
    cbn [fst snd]. destruct instance as [host name enabled]. cbn in *.
    rewrite IH.
    + cbn. now rewrite <- app_assoc.
    + unfold hosts in *. cbn. rewrite fmap_app, <- app_assoc. exact Hnodup.
Qed.

(** Group names that are new and differ from each other are appended. *)
Lemma applyGroupNameOptions_fresh (groupNames : list string) :
  forall this,
    NoDup (Options.groupNames_ this ++ groupNames) ->
    Options.applyGroupNameOptions groupNames this
    = (Normal tt,
       {| Options.instances_ := Options.instances_ this;
          Options.groupNames_ := Options.groupNames_ this ++ groupNames |},
       AppendGroupNameItem <$> groupNames).
Proof.
  induction groupNames as [|g rest IH]; intros this Hnodup.
  - cbn. rewrite app_nil_r. now destruct this.
  - rewrite applyGroupNameOptions_cons.
    assert (Hnew : g ∉ Options.groupNames_ this).
    { apply NoDup_app in Hnodup as (_ & Hdisjoint & _).
      intros Hin. apply (Hdisjoint _ Hin). left. }
    rewrite (bind_normal _ _ this _ tt _ (addGroupName_absent g this Hnew)).
    unfold Options.completion_of, Options.state_after, Options.effects_of.
    rewrite IH.
    + cbn. now rewrite <- app_assoc.
    + cbn. now rewrite <- app_assoc.
Qed.

(** A group name that is there already, or twice in the list, ends the
    restoring with the TypeError of [addGroupName]. *)
Lemma applyGroupNameOptions_throws (groupNames : list string) :
  forall this,
    NoDup (Options.groupNames_ this) ->
    ~ NoDup (Options.groupNames_ this ++ groupNames) ->
    Options.completion_of (Options.applyGroupNameOptions groupNames) this
    = Throw undefined_setStatusText.
Proof.
  induction groupNames as [|g rest IH]; intros this Hnodup Hdup.
  - rewrite app_nil_r in Hdup. contradiction.
  - unfold Options.completion_of. rewrite applyGroupNameOptions_cons.
    destruct (decide (g ∈ Options.groupNames_ this)) as [Hin|Hnew].
    + now rewrite (bind_throw _ _ this _ _ _ (addGroupName_present g this Hin)).
    + rewrite (bind_normal _ _ this _ tt _ (addGroupName_absent g this Hnew)).
      cbn [fst]. apply IH.
      * cbn. apply NoDup_app. split; [exact Hnodup|]. split.
        -- intros x Hx Hsingle. apply list_elem_of_singleton in Hsingle.
           congruence.
        -- apply NoDup_singleton.
      * cbn. now rewrite <- app_assoc.
Qed.

(** The reaction of the load on fresh hosts and names. *)
Lemma loadOptions_appends (env : Persistence) (options : OptionsDocument.t)
      (this : Options.t) :
  fetchOptions_settles env = Resolved options ->
  NoDup (hosts this
         ++ (GerritInstance.host <$> OptionsDocument.instances options)) ->
  NoDup (Options.groupNames_ this ++ OptionsDocument.groupNames options) ->
  Options.completion_of (Options.loadOptions env) this = Normal (Resolved tt)
  /\ Options.instances_ (Options.state_after (Options.loadOptions env) this)
     = Options.instances_ this ++ OptionsDocument.instances options
  /\ Options.groupNames_ (Options.state_after (Options.loadOptions env) this)
     = Options.groupNames_ this ++ OptionsDocument.groupNames options.
Proof.
  intros Hfetch Hhosts Hnames.
  pose proof (applyInstanceOptions_returns
                (OptionsDocument.instances options) this) as Hreturns.
  pose proof (applyInstanceOptions_fresh _ this Hhosts) as Hinstances.
  pose proof (applyInstanceOptions_groupNames
                (OptionsDocument.instances options) this) as Hkept.
  assert (Hload : Options.loadOptions_fulfilled options this
    = (Normal tt,
       {| Options.instances_ :=
            Options.instances_ this ++ OptionsDocument.instances options;
          Options.groupNames_ :=
            Options.groupNames_ this ++ OptionsDocument.groupNames options |},
       Options.effects_of
         (Options.applyInstanceOptions (OptionsDocument.instances options)) this
       ++ (AppendGroupNameItem <$> OptionsDocument.groupNames options))).
  { unfold Options.loadOptions_fulfilled, Options.bind_this, Options.on.
    rewrite (bind_normal _ _ this _ tt _
               ltac:(rewrite run_triple, Hreturns; reflexivity)).
    unfold Options.completion_of, Options.state_after, Options.effects_of.
    rewrite applyGroupNameOptions_fresh.
    - cbn [fst snd]. fold (Options.state_after
        (Options.applyInstanceOptions (OptionsDocument.instances options)) this).
      now rewrite Hinstances, Hkept.
    - fold (Options.state_after
        (Options.applyInstanceOptions (OptionsDocument.instances options)) this).
      now rewrite Hkept. }
  unfold Options.completion_of, Options.state_after, Options.loadOptions,
    Options.then_, Options.gerrit_fetchOptions, Options.bind, Options.emit,
    Options.ret. rewrite Hfetch, Hload. repeat split.
Qed.

Lemma loadOptions_restored_from_empty (env : Persistence)
      (options : OptionsDocument.t) :
  fetchOptions_settles env = Resolved options ->
  NoDup (GerritInstance.host <$> OptionsDocument.instances options) ->
  NoDup (OptionsDocument.groupNames options) ->
  Options.completion_of (Options.loadOptions env) Options.constructor
  = Normal (Resolved tt)
  /\ Options.instances_
       (Options.state_after (Options.loadOptions env) Options.constructor)
     = OptionsDocument.instances options
  /\ Options.groupNames_
       (Options.state_after (Options.loadOptions env) Options.constructor)
     = OptionsDocument.groupNames options.
Proof.
  intros Hfetch Hhosts Hnames.
  exact (loadOptions_appends env options Options.constructor Hfetch Hhosts Hnames).
Qed.

(** X2: a stored document in which no host and no group name occurs
    twice, and none that the model has already, is restored as it is:
    [loadOptions] resolves, and the instances and group names of the
    document are appended to those of the model with their fields
    unchanged. On the empty model the result is the document. *)
Theorem loadOptions_restores (env : Persistence) (options : OptionsDocument.t)
        (this : Options.t) :
  fetchOptions_settles env = Resolved options ->
  NoDup (hosts this
         ++ (GerritInstance.host <$> OptionsDocument.instances options)) ->
  NoDup (Options.groupNames_ this ++ OptionsDocument.groupNames options) ->
  Options.completion_of (Options.loadOptions env) this = Normal (Resolved tt)
  /\ Options.instances (Options.state_after (Options.loadOptions env) this)
     = Options.instances this ++ OptionsDocument.instances options
  /\ Options.groupNames (Options.state_after (Options.loadOptions env) this)
     = Options.groupNames this ++ OptionsDocument.groupNames options.
Proof. apply loadOptions_appends. Qed.

Lemma loadOptions_restores_witness :
  fetchOptions_settles storage_ok = Resolved stored_document
  /\ NoDup (hosts Options.constructor
            ++ (GerritInstance.host <$> OptionsDocument.instances stored_document))
  /\ NoDup (Options.groupNames_ Options.constructor
            ++ OptionsDocument.groupNames stored_document)
  /\ Options.instances
       (Options.state_after (Options.loadOptions storage_ok) Options.constructor)
     = Options.instances Options.constructor
       ++ OptionsDocument.instances stored_document.
Proof.
  assert (Hhosts : NoDup (hosts Options.constructor
            ++ (GerritInstance.host <$> OptionsDocument.instances stored_document)))
    by (apply NoDup_singleton).
  assert (Hnames : NoDup (Options.groupNames_ Options.constructor
            ++ OptionsDocument.groupNames stored_document))
    by (apply NoDup_singleton).
  split; [reflexivity|]. split; [exact Hhosts|]. split; [exact Hnames|].
  exact (proj1 (proj2 (loadOptions_restores storage_ok stored_document
                         Options.constructor eq_refl Hhosts Hnames))).
Defined.

(** X3: a stored document that repeats a group name, or holds one the
    model has already, makes the promise of [loadOptions] reject with the
    TypeError of [addGroupName]; nothing in the page handles it. *)
Theorem loadOptions_rejects_repeated_name (env : Persistence)
        (options : OptionsDocument.t) (this : Options.t) :
  fetchOptions_settles env = Resolved options ->
  NoDup (Options.groupNames_ this) ->
  ~ NoDup (Options.groupNames_ this ++ OptionsDocument.groupNames options) ->
  Options.completion_of (Options.loadOptions env) this
  = Normal (Rejected undefined_setStatusText).
Proof.
  intros Hfetch Hnodup Hdup.
  pose proof (applyInstanceOptions_returns
                (OptionsDocument.instances options) this) as Hreturns.
  pose proof (applyInstanceOptions_groupNames
                (OptionsDocument.instances options) this) as Hkept.
  assert (Hload : Options.completion_of (Options.loadOptions_fulfilled options) this
                  = Throw undefined_setStatusText).
  { unfold Options.completion_of, Options.loadOptions_fulfilled,
      Options.bind_this, Options.on.
    rewrite (bind_normal _ _ this _ tt _
               ltac:(rewrite run_triple, Hreturns; reflexivity)).
    cbn [fst]. apply applyGroupNameOptions_throws; now rewrite Hkept. }
  unfold Options.completion_of in *.
  unfold Options.loadOptions, Options.then_, Options.gerrit_fetchOptions,
    Options.bind, Options.emit, Options.ret. rewrite Hfetch.
  destruct (Options.loadOptions_fulfilled options this) as [[c this'] effects].
  cbn in Hload. now rewrite Hload.
Qed.

Lemma loadOptions_rejects_repeated_name_witness :
  fetchOptions_settles (fetches stored_twice) = Resolved stored_twice
  /\ NoDup (Options.groupNames_ Options.constructor)
  /\ ~ NoDup (Options.groupNames_ Options.constructor
              ++ OptionsDocument.groupNames stored_twice)
  /\ Options.completion_of (Options.loadOptions (fetches stored_twice))
                           Options.constructor
     = Normal (Rejected undefined_setStatusText).
Proof.
  assert (Hnodup : NoDup (Options.groupNames_ Options.constructor))
    by apply NoDup_nil_2.
  assert (Hdup : ~ NoDup (Options.groupNames_ Options.constructor
                          ++ OptionsDocument.groupNames stored_twice)).
  { intros H. apply NoDup_cons in H as [Hnot _]. apply Hnot.
    right. left. }
  split; [reflexivity|]. split; [exact Hnodup|]. split; [exact Hdup|].
  exact (loadOptions_rejects_repeated_name (fetches stored_twice) stored_twice
           Options.constructor eq_refl Hnodup Hdup).
Defined.

(** ** Saving and loading again *)

Lemma saved_document (env : Persistence) (this : Options.t)
      (options : OptionsDocument.t) :
  In (CallSaveOptions options)
     (Options.effects_of (Options.saveInstanceOptions env) this
      ++ Options.effects_of (Options.saveGroupNameOptions env) this) ->
  options = document_of this.
Proof.
  unfold Options.effects_of.
  rewrite saveInstanceOptions_run, saveGroupNameOptions_run. cbn [snd].
  intros Hin. apply in_app_or in Hin as [Hin|Hin].
  - destruct (setAllowedOrigins_settles env _);
      [destruct (saveOptions_settles env _)|]; cbn in Hin;
      repeat (destruct Hin as [Hin|Hin]; [try discriminate; congruence|]);
      destruct Hin.
  - destruct (List.filter (fun g => negb (valid_groupNameb g)) _);
      [destruct (List.filter valid_groupNameb _);
       [|destruct (saveOptions_settles env _)]|]; cbn in Hin;
      repeat (destruct Hin as [Hin|Hin]; [try discriminate; congruence|]);
      destruct Hin.
Qed.

(** X4: what either save method hands to [saveOptions] is enough to get
    the model back: on a model without repeated hosts or group names, a
    new page that fetches the saved document ends, after [loadOptions],
    with the same instances (fields included) and the same group names. *)
Theorem saved_document_restores (env env' : Persistence) (this : Options.t)
        (options : OptionsDocument.t) :
  unique this ->
  In (CallSaveOptions options)
     (Options.effects_of (Options.saveInstanceOptions env) this
      ++ Options.effects_of (Options.saveGroupNameOptions env) this) ->
  fetchOptions_settles env' = Resolved options ->
  Options.completion_of (Options.loadOptions env') Options.constructor
  = Normal (Resolved tt)
  /\ Options.state_after (Options.loadOptions env') Options.constructor = this.
Proof.
  intros [Hhosts Hnames] Hsaved Hfetch.
  apply saved_document in Hsaved. subst options.
  destruct (loadOptions_restored_from_empty env' (document_of this) Hfetch
              Hhosts Hnames) as (Hcompletion & Hinstances & HgroupNames).
  split; [exact Hcompletion|].
  destruct (Options.state_after (Options.loadOptions env') Options.constructor)
    as [instances' groupNames'].
  destruct this as [instances groupNames]. cbn in *. congruence.
Qed.

Lemma saved_document_restores_witness :
  unique one_valid_name
  /\ In (CallSaveOptions (document_of one_valid_name))
        (Options.effects_of (Options.saveInstanceOptions storage_ok) one_valid_name
         ++ Options.effects_of (Options.saveGroupNameOptions storage_ok)
                               one_valid_name)
  /\ fetchOptions_settles (fetches (document_of one_valid_name))
     = Resolved (document_of one_valid_name)
  /\ Options.state_after
       (Options.loadOptions (fetches (document_of one_valid_name)))
       Options.constructor
     = one_valid_name.
Proof.
  assert (Hunique : unique one_valid_name)
    by (split; [apply NoDup_nil_2|apply NoDup_singleton]).
  assert (Hsaved : In (CallSaveOptions (document_of one_valid_name))
        (Options.effects_of (Options.saveInstanceOptions storage_ok) one_valid_name
         ++ Options.effects_of (Options.saveGroupNameOptions storage_ok)
                               one_valid_name))
    by (right; right; left; reflexivity).
  split; [exact Hunique|]. split; [exact Hsaved|]. split; [reflexivity|].
  exact (proj2 (saved_document_restores storage_ok
                  (fetches (document_of one_valid_name)) one_valid_name
                  (document_of one_valid_name) Hunique Hsaved eq_refl)).
Defined.

(** ** Nothing is ever removed *)

Lemma grows_refl (this : Options.t) : grows this this.
Proof. split; reflexivity. Qed.

Lemma grows_push_instance (this0 this : Options.t) (instance : GerritInstance.t) :
  grows this0 this -> grows this0 (Options.push_instance instance this).
Proof.
  intros [Hhosts Hnames]. split; [|exact Hnames].
  unfold hosts in *. cbn. rewrite fmap_app. now apply prefix_app_r.
Qed.

Lemma grows_update_instance (this0 this : Options.t) (i : nat)
      (f : GerritInstance.t -> GerritInstance.t) :
  (forall y, GerritInstance.host (f y) = GerritInstance.host y) ->
  grows this0 this -> grows this0 (Options.update_instance i f this).
Proof.
  intros Hf [Hhosts Hnames]. split; [|exact Hnames].
  unfold hosts in *. cbn. now rewrite hosts_alter.
Qed.

Lemma addGerritInstance_grows (this0 : Options.t) (host name : string)
      (enabled : bool) :
  preserves (grows this0) (Options.addGerritInstance host name enabled).
Proof.
  intros this Hgrows.
  destruct (list_find (fun instance => GerritInstance.host instance = host)
                      (Options.instances_ this)) as [[i x]|] eqn:Hfind.
  - unfold Options.state_after.
    rewrite (addGerritInstance_found _ _ _ _ _ _ Hfind). cbn [fst snd].
    now apply grows_update_instance.
  - rewrite (addGerritInstance_not_found _ _ _ _ Hfind).
    now apply grows_push_instance.
Qed.

Lemma addGroupName_grows (this0 : Options.t) (groupName : string) :
  preserves (grows this0) (Options.addGroupName groupName).
Proof.
  intros this [Hhosts Hnames]. unfold Options.state_after.
  destruct (decide (groupName ∈ Options.groupNames_ this)) as [Hin|Hnew].
  - rewrite addGroupName_present by exact Hin. now split.
  - rewrite addGroupName_absent by exact Hnew. split; [exact Hhosts|].
    cbn. now apply prefix_app_r.
Qed.

Lemma dispatch_grows (this0 : Options.t) (env : Persistence) (e : event) :
  preserves (grows this0) (dispatch env e).
Proof.
  destruct e as [|value|host_value name_value|instance_index checked| | | ];
    cbn [dispatch].
  - destruct (fetchOptions_settles env) as [options|reason];
      [|apply preserves_ret].
    unfold Options.loadOptions_fulfilled, Options.bind_this.
    apply preserves_bind; [|intros _]; apply preserves_on;
      apply preserves_forEach; intros x; apply preserves_on.
    + apply addGerritInstance_grows.
    + apply addGroupName_grows.
  - unfold Options.on_add_group_click.
    destruct (RegExp.exec config.GROUP_NAME_REGEXP value).
    + apply preserves_bind; [apply addGroupName_grows|intros; apply preserves_emit].
    + now intros this.
  - unfold Options.on_add_instance_click.
    destruct (_ && _).
    + apply preserves_bind; [apply addGerritInstance_grows|intros _].
      apply preserves_bind; intros; apply preserves_emit.
    + now intros this.
  - intros this Hgrows. now apply grows_update_instance.
  - apply preserves_bind; [apply preserves_emit|intros _].
    intros this Hgrows. unfold Options.state_after, Options.bind.
    now rewrite saveInstanceOptions_run.
  - apply preserves_bind; [apply preserves_emit|intros _].
    intros this Hgrows. unfold Options.state_after.
    now rewrite saveGroupNameOptions_run.
  - now intros this.
Qed.

Lemma run_grows (env : Persistence) (events : list event) (this : Options.t) :
  grows this (run env events this).
Proof.
  assert (Hgeneral : forall this', grows this this' ->
                                   grows this (run env events this')).
  { unfold run. induction events as [|e rest IH]; intros this' Hgrows; cbn;
      [exact Hgrows|].
    apply IH. now apply dispatch_grows. }
  apply Hgeneral, grows_refl.
Qed.

(** X5: no event removes or moves anything: whatever the browser delivers
    (clicks, checkbox changes, the load, timers), the hosts and the group
    names the model had are still there afterwards, at the same indices,
    and new ones come after them. *)
Theorem nothing_is_removed (env : Persistence) (events : list event)
        (this : Options.t) :
  hosts this `prefix_of` hosts (run env events this)
  /\ Options.groupNames this `prefix_of` Options.groupNames (run env events this)
  /\ length (Options.instances this)
     <= length (Options.instances (run env events this)).
Proof.
  destruct (run_grows env events this) as [Hhosts Hnames].
  split; [exact Hhosts|]. split; [exact Hnames|].
  apply prefix_length in Hhosts. unfold hosts in Hhosts.
  now rewrite !length_fmap in Hhosts.
Qed.

(** X6: a group name that fails the pattern and is in the model (the load
    restores names without looking at them) blocks [saveGroupNameOptions]
    from then on: after any further events the method still calls no
    persistence function and reports invalid names. *)
Theorem invalid_name_blocks_group_saves (env : Persistence)
        (events : list event) (this : Options.t) (groupName : string) :
  In groupName (Options.groupNames this) ->
  ~ valid_groupName groupName ->
  let effects :=
    Options.effects_of (Options.saveGroupNameOptions env) (run env events this) in
  persistence_calls effects = []
  /\ exists invalidGroups,
       In groupName invalidGroups
       /\ status_texts effects
          = ["Invalid group names: " +:+ JsString.join ", " invalidGroups].
Proof.
  intros Hin Hbad effects. subst effects.
  destruct (run_grows env events this) as [_ [more Hnames]].
  unfold Options.effects_of. rewrite saveGroupNameOptions_run. cbn [snd].
  assert (Hinvalid : In groupName
            (List.filter (fun g => negb (valid_groupNameb g))
                         (Options.groupNames_ (run env events this)))).
  { apply List.filter_In. split.
    - rewrite Hnames. apply in_or_app. now left.
    - destruct (valid_groupNameb groupName) eqn:Hvalid; [|reflexivity].
      apply valid_groupNameb_true in Hvalid. contradiction. }
  destruct (List.filter (fun g => negb (valid_groupNameb g)) _) as [|g invalid]
    eqn:Hfilter; [destruct Hinvalid|].
  split; [reflexivity|]. exists (g :: invalid). split; [exact Hinvalid|reflexivity].
Qed.

Lemma invalid_name_blocks_group_saves_witness :
  In "a b" (Options.groupNames one_invalid_name)
  /\ ~ valid_groupName "a b"
  /\ persistence_calls
       (Options.effects_of (Options.saveGroupNameOptions storage_ok)
          (run storage_ok [AddGroupClick "team-y"; SaveInstanceClick]
               one_invalid_name)) = [].
Proof.
  assert (Hin : In "a b" (Options.groupNames one_invalid_name))
    by (right; left; reflexivity).
  assert (Hbad : ~ valid_groupName "a b")
    by (intros Hvalid; apply Hvalid; reflexivity).
  split; [exact Hin|]. split; [exact Hbad|].
  exact (proj1 (invalid_name_blocks_group_saves storage_ok
                  [AddGroupClick "team-y"; SaveInstanceClick]
                  one_invalid_name "a b" Hin Hbad)).
Defined.

(** ** The click on the add-group button *)

(** X7: what the click listener of [add-group-button] does with the
    content of the field. A value the pattern rejects: the status text is
    "Incorrect group name values." and nothing else happens. An accepted
    value that is new: it is appended, its list item is rendered and the
    field is cleared. An accepted value that is stored already: the
    TypeError of [addGroupName] escapes the listener, so the model is as
    before, no status text is written and the field is not cleared. *)
Theorem on_add_group_click_cases (value : string) (this : Options.t) :
  (~ valid_groupName value ->
   Options.on_add_group_click value this
   = (Normal tt, this, status_effects "Incorrect group name values."))
  /\ (valid_groupName value -> ~ In value (Options.groupNames this) ->
      Options.on_add_group_click value this
      = (Normal tt, Options.push_groupName value this,
         [AppendGroupNameItem value; SetValue "add-group-name" ""]))
  /\ (valid_groupName value -> In value (Options.groupNames this) ->
      Options.on_add_group_click value this
      = (Throw undefined_setStatusText, this, [])).
Proof.
  unfold valid_groupName, Options.on_add_group_click, Options.groupNames.
  destruct (RegExp.exec config.GROUP_NAME_REGEXP value) as [match_|].
  - split; [intros Hbad; exfalso; apply Hbad; discriminate|].
    split; intros _ Hin.
    + rewrite <- list_elem_of_In in Hin.
      now rewrite (bind_normal _ _ this _ tt _ (addGroupName_absent value this Hin)).
    + rewrite <- list_elem_of_In in Hin.
      now rewrite (bind_throw _ _ this _ _ _ (addGroupName_present value this Hin)).
  - split; [reflexivity|]. split; intros Hvalid; now exfalso.
Qed.

Lemma on_add_group_click_cases_witness :
  (~ valid_groupName "a b"
   /\ Options.on_add_group_click "a b" one_valid_name
      = (Normal tt, one_valid_name, status_effects "Incorrect group name values."))
  /\ (valid_groupName "team-y" /\ ~ In "team-y" (Options.groupNames one_valid_name)
      /\ Options.on_add_group_click "team-y" one_valid_name
         = (Normal tt, Options.push_groupName "team-y" one_valid_name,
            [AppendGroupNameItem "team-y"; SetValue "add-group-name" ""]))
  /\ (valid_groupName "team-x" /\ In "team-x" (Options.groupNames one_valid_name)
      /\ Options.on_add_group_click "team-x" one_valid_name
         = (Throw undefined_setStatusText, one_valid_name, [])).
Proof.
  assert (Hbad : ~ valid_groupName "a b")
    by (intros Hvalid; apply Hvalid; reflexivity).
  assert (Hy : valid_groupName "team-y") by (vm_compute; discriminate).
  assert (Hx : valid_groupName "team-x") by (vm_compute; discriminate).
  assert (Hnew : ~ In "team-y" (Options.groupNames one_valid_name))
    by (intros [Heq|[]]; discriminate).
  assert (Hold : In "team-x" (Options.groupNames one_valid_name))
    by (left; reflexivity).
  split; [|split].
  - exact (conj Hbad
             (proj1 (on_add_group_click_cases "a b" one_valid_name) Hbad)).
  - exact (conj Hy (conj Hnew
             (proj1 (proj2 (on_add_group_click_cases "team-y" one_valid_name))
                    Hy Hnew))).
  - exact (conj Hx (conj Hold
             (proj2 (proj2 (on_add_group_click_cases "team-x" one_valid_name))
                    Hx Hold))).
Defined.

(** ** How much a match reads *)

Section MatcherLength.

Context {R : Type}.
Variable ignoreCase : bool.
Variable input_length : nat.

Lemma repeat_matcher_reads
      (m : list ascii -> RegExp.captures -> RegExp.continuation (R := R)
           -> option R)
      (inner : list nat) :
  (forall s caps (k : RegExp.continuation (R := R)) z,
      m s caps k = Some z ->
      exists s' caps', k s' caps' = Some z /\ length s' <= length s) ->
  forall fuel s caps (k : RegExp.continuation (R := R)) z,
    RegExp.repeat_matcher m inner fuel s caps k = Some z ->
    exists s' caps', k s' caps' = Some z /\ length s' <= length s.
Proof.
  intros Hm. induction fuel as [|fuel IH]; intros s caps k z; [discriminate|].
  cbn. destruct (m s _ _) as [z'|] eqn:Hiter.
  - intros [= ->]. apply Hm in Hiter as (s1 & caps1 & Hk & Hlen).
    destruct (length s1 =? length s); [discriminate|].
    apply IH in Hk as (s2 & caps2 & Hk & Hlen2).
    exists s2, caps2. split; [exact Hk|lia].
  - intros Hk. exists s, caps. split; [exact Hk|lia].
Qed.

(** A successful match hands the continuation a rest that is shorter than
    the input by at least the least length of the pattern. *)
Lemma matcher_reads (r : RegExp.regex) :
  forall s caps (k : RegExp.continuation (R := R)) z,
    RegExp.matcher ignoreCase input_length r s caps k = Some z ->
    exists s' caps',
      k s' caps' = Some z /\ length s' + min_length r <= length s.
Proof.
  induction r as [ |c| |negated ranges|r1 IH1 r2 IH2|r1 IH1 r2 IH2
                  |r1 IH1|r1 IH1|r1 IH1|n r1 IH1| | ];
    intros s caps k z Hm; cbn [RegExp.matcher] in Hm; cbn [min_length].
  - exists s, caps. split; [exact Hm|lia].
  - destruct s as [|a s']; [discriminate|].
    destruct (RegExp.char_matches _ _ _); [|discriminate].
    exists s', caps. split; [exact Hm|cbn; lia].
  - destruct s as [|a s']; [discriminate|].
    destruct (RegExp.is_line_terminator _); [discriminate|].
    exists s', caps. split; [exact Hm|cbn; lia].
  - destruct s as [|a s']; [discriminate|].
    destruct (xorb _ _); [|discriminate].
    exists s', caps. split; [exact Hm|cbn; lia].
  - apply IH1 in Hm as (s1 & caps1 & Hk & Hlen).
    apply IH2 in Hk as (s2 & caps2 & Hk & Hlen2).
    exists s2, caps2. split; [exact Hk|lia].
  - destruct (RegExp.matcher _ _ r1 _ _ _) as [z'|] eqn:H1.
    + injection Hm as ->. apply IH1 in H1 as (s1 & caps1 & Hk & Hlen).
      exists s1, caps1. split; [exact Hk|lia].
    + apply IH2 in Hm as (s1 & caps1 & Hk & Hlen).
      exists s1, caps1. split; [exact Hk|lia].
  - apply (repeat_matcher_reads (RegExp.matcher ignoreCase input_length r1))
      in Hm as (s1 & caps1 & Hk & Hlen).
    + exists s1, caps1. split; [exact Hk|lia].
    + intros s0 caps0 k0 z0 H0. apply IH1 in H0 as (s1 & caps1 & Hk & Hlen).
      exists s1, caps1. split; [exact Hk|lia].
  - apply IH1 in Hm as (s1 & caps1 & Hk & Hlen).
    apply (repeat_matcher_reads (RegExp.matcher ignoreCase input_length r1))
      in Hk as (s2 & caps2 & Hk & Hlen2).
    + exists s2, caps2. split; [exact Hk|lia].
    + intros s0 caps0 k0 z0 H0. apply IH1 in H0 as (s3 & caps3 & Hk3 & Hlen3).
      exists s3, caps3. split; [exact Hk3|lia].
  - destruct (RegExp.matcher _ _ r1 _ _ _) as [z'|] eqn:H1.
    + injection Hm as ->. apply IH1 in H1 as (s1 & caps1 & Hk & Hlen).
      destruct (length s1 =? length s); [discriminate|].
      exists s1, caps1. split; [exact Hk|lia].
    + exists s, caps. split; [exact Hm|lia].
  - apply IH1 in Hm as (s1 & caps1 & Hk & Hlen). eauto.
  - destruct (length s =? input_length); [|discriminate].
    exists s, caps. split; [exact Hm|lia].
  - destruct s; [|discriminate]. exists [], caps. split; [exact Hm|cbn; lia].
Qed.

End MatcherLength.

Lemma chars_length (s : string) : length (JsString.chars s) = String.length s.
Proof.
  unfold JsString.chars. induction s as [|c s IH]; cbn; [reflexivity|].
  now rewrite IH.
Qed.

(** An anchored expression matches only inputs that are at least as long
    as the least length of its pattern. *)
Lemma exec_anchored_length (re : RegExp.t) (r : RegExp.regex) (input : string) :
  RegExp.source re = RegExp.Seq RegExp.Bol r ->
  RegExp.exec re input <> None ->
  min_length r <= String.length input.
Proof.
  intros Hsource Hexec. unfold RegExp.exec in Hexec.
  rewrite <- chars_length. set (s := JsString.chars input) in *.
  destruct (RegExp.matcher (RegExp.ignoreCase re) (length s) (RegExp.source re) s
              (replicate (RegExp.group_count re) None)
              (fun s' caps' => Some (s', caps'))) as [z|] eqn:Hm.
  - rewrite Hsource in Hm. cbn [RegExp.matcher] in Hm.
    destruct (length s =? length s); [|discriminate].
    apply matcher_reads in Hm as (s' & caps' & _ & Hlen). lia.
  - exfalso. apply Hexec. destruct s as [|a s'] eqn:Hs; cbn; cbn in Hm;
      rewrite Hm; [reflexivity|].
    apply (exec_from_after_start re r); [exact Hsource|cbn; lia].
Qed.

(** X8: a value of fewer than three characters fails the group-name
    expression, whatever its characters are: the add click answers
    "Incorrect group name values." and stores nothing. *)
Theorem short_groupName_rejected (value : string) (this : Options.t) :
  String.length value < 3 ->
  ~ valid_groupName value
  /\ Options.on_add_group_click value this
     = (Normal tt, this, status_effects "Incorrect group name values.").
Proof.
  intros Hshort.
  assert (Hbad : ~ valid_groupName value).
  { intros Hvalid.
    pose proof (exec_anchored_length config.GROUP_NAME_REGEXP _ value
                  (f_equal RegExp.source GROUP_NAME_REGEXP_parsed) Hvalid) as Hlen.
    cbn in Hlen. lia. }
  split; [exact Hbad|].
  unfold valid_groupName in Hbad. unfold Options.on_add_group_click.
  destruct (RegExp.exec config.GROUP_NAME_REGEXP value); [|reflexivity].
  exfalso. apply Hbad. discriminate.
Qed.

Lemma short_groupName_rejected_witness :
  String.length "ab" < 3
  /\ ~ valid_groupName "ab"
  /\ Options.on_add_group_click "ab" Options.constructor
     = (Normal tt, Options.constructor,
        status_effects "Incorrect group name values.").
Proof.
  assert (Hshort : String.length "ab" < 3) by (cbn; lia).
  exact (conj Hshort (short_groupName_rejected "ab" Options.constructor Hshort)).
Defined.

(** ** The path part of the origin pattern *)

Lemma in_segment_from_first_slash (s : list ascii) :
  in_segment s = after_path (from_first_slash s).
Proof.
  induction s as [|c s IH]; [reflexivity|].
  cbn [in_segment from_first_slash].
  destruct (Ascii.eqb c "/") eqn:Hc; [|exact IH].
  apply Ascii.eqb_eq in Hc. subst c.
  destruct s as [|c2 s'']; [reflexivity|].
  cbn. now destruct (Ascii.eqb c2 "/").
Qed.

Lemma after_path_length (s : list ascii) : length (after_path s) <= length s.
Proof.
  assert (Hseg : forall n s, length s <= n -> length (in_segment s) <= length s).
  { induction n as [|n IH]; intros t Hlen.
    - destruct t; [cbn; lia|cbn in Hlen; lia].
    - destruct t as [|c t']; [cbn; lia|]. cbn [in_segment].
      destruct (Ascii.eqb c "/").
      + destruct t' as [|c2 t'']; [lia|].
        destruct (Ascii.eqb c2 "/"); [lia|].
        cbn in Hlen. specialize (IH t'' ltac:(lia)). cbn. lia.
      + cbn in Hlen. specialize (IH t' ltac:(lia)). cbn. lia. }
  unfold after_path. destruct s as [|c [|c2 s'']]; try lia.
  destruct (_ && _); [|lia].
  specialize (Hseg (length s'') s'' ltac:(lia)). cbn. lia.
Qed.

(** The star over the second group reads segment after segment and stops
    where [after_path] says; with a continuation that accepts everything
    it does not come back on a segment. *)
Lemma star_origin_group_2 (input_length : nat) :
  forall n (s : list ascii) fuel caps,
    length s <= n -> length s < fuel ->
    exists caps',
      RegExp.repeat_matcher
        (RegExp.matcher false input_length (RegExp.Group 2 origin_group_2))
        [2] fuel s caps (fun s' caps' => Some (s', caps'))
      = Some (after_path s, caps').
Proof.
  induction n as [|n IH]; intros s fuel caps Hn Hfuel;
    (destruct fuel as [|fuel]; [lia|]).
  - destruct s; [|cbn in Hn; lia]. cbn. eauto.
  - cbn [RegExp.repeat_matcher].
    destruct s as [|c s1]; [cbn; eauto|].
    unfold origin_group_2 at 1. cbn [RegExp.matcher RegExp.group_ids].
    unfold RegExp.char_matches.
    destruct (Ascii.eqb_spec "/" c) as [<-|Hc].
    2:{ exists caps. unfold after_path.
        destruct s1 as [|c2 s'']; [reflexivity|].
        now rewrite (proj2 (Ascii.eqb_neq c "/")) by congruence. }
    destruct s1 as [|c2 s'']; [cbn; eauto|].
    cbn [RegExp.clear_captures foldr app].
    unfold not_slash at 1. cbn [RegExp.matcher].
    rewrite not_slash_matches.
    unfold after_path. cbn [Ascii.eqb andb].
    change (Ascii.eqb "/" "/") with true. cbn [andb].
    destruct (Ascii.eqb c2 "/") eqn:Hc2; cbn [negb]; [eauto|].
    rewrite in_segment_from_first_slash.
    set (caps1 := RegExp.set_capture 2 None caps).
    set (t := from_first_slash s'').
    assert (Ht : length t <= length s'').
    { subst t. clear. induction s'' as [|a s IH]; cbn; [lia|].
      destruct (Ascii.eqb a "/"); cbn; lia. }
    cbn in Hn, Hfuel.
    destruct (IH t fuel
                (RegExp.set_capture 2
                   (Some (take (length ("/"%char :: c2 :: s'') - length t)
                               ("/"%char :: c2 :: s''))) caps1)
                ltac:(lia) ltac:(lia)) as [caps' Hrest].
    exists caps'.
    rewrite (star_not_slash input_length s'' (S (length s'')) caps1 _
               (after_path t, caps')); [reflexivity|lia|].
    fold t. cbn beta.
    replace (length t =? length ("/"%char :: c2 :: s'')) with false
      by (symmetry; apply Nat.eqb_neq; cbn; lia).
    exact Hrest.
Qed.

Lemma of_chars_length (l : list ascii) :
  String.length (JsString.of_chars l) = length l.
Proof.
  unfold JsString.of_chars. induction l as [|c l IH]; cbn; [reflexivity|].
  now rewrite IH.
Qed.

Lemma strip_prefix_length (p s rest : list ascii) :
  strip_prefix p s = Some rest -> length s = length p + length rest.
Proof.
  revert s. induction p as [|c p IH]; intros s Hstrip; cbn in Hstrip.
  - now injection Hstrip as ->.
  - destruct s as [|a s]; [discriminate|].
    destruct (Ascii.eqb c a); [|discriminate]. cbn. now rewrite (IH s).
Qed.

Lemma strip_scheme_length (s rest : list ascii) :
  strip_scheme s = Some rest -> length rest < length s.
Proof.
  unfold strip_scheme.
  destruct (strip_prefix (JsString.chars "https://") s) as [rest'|] eqn:Hs.
  - intros [= ->]. apply strip_prefix_length in Hs. cbn in Hs. lia.
  - intros Hstrip. apply strip_prefix_length in Hstrip. cbn in Hstrip. lia.
Qed.

Lemma from_first_slash_length (s : list ascii) :
  length (from_first_slash s) <= length s.
Proof.
  induction s as [|a s IH]; cbn; [lia|].
  destruct (Ascii.eqb a "/"); cbn; lia.
Qed.

(** The whole match of the origin expression: the input up to where the
    path stops. *)
Lemma exec_ORIGIN_REGEXP_matched (host : string) :
  match RegExp.exec config.ORIGIN_REGEXP host with
  | Some match_ => exists rest,
      strip_scheme (JsString.chars host) = Some rest
      /\ RegExp.matched match_
         = JsString.of_chars
             (take (length (JsString.chars host)
                    - length (after_path (from_first_slash rest)))
                   (JsString.chars host))
  | None => strip_scheme (JsString.chars host) = None
  end.
Proof.
  unfold RegExp.exec.
  set (s := JsString.chars host).
  assert (Hunfold :
    RegExp.exec_from config.ORIGIN_REGEXP (length s) s
    = match RegExp.matcher (RegExp.ignoreCase config.ORIGIN_REGEXP) (length s)
              (RegExp.source config.ORIGIN_REGEXP) s
              (replicate (RegExp.group_count config.ORIGIN_REGEXP) None)
              (fun s' caps' => Some (s', caps')) with
      | Some (s', caps') =>
          Some {| RegExp.index := length s - length s;
                  RegExp.matched :=
                    JsString.of_chars (take (length s - length s') s);
                  RegExp.groups := map (option_map JsString.of_chars) caps' |}
      | None =>
          match s with
          | [] => None
          | _ :: s' => RegExp.exec_from config.ORIGIN_REGEXP (length s) s'
          end
      end) by (destruct s; reflexivity).
  rewrite Hunfold. clear Hunfold. rewrite ORIGIN_REGEXP_parsed.
  cbn [RegExp.source RegExp.ignoreCase RegExp.group_count RegExp.matcher replicate].
  rewrite Nat.eqb_refl, matcher_origin_group_1.
  destruct (strip_scheme s) as [rest|] eqn:Hscheme.
  - set (t := from_first_slash rest).
    destruct (star_origin_group_2 (length s) (length t) t (S (length t))
                (RegExp.set_capture 1 (Some (take (length s - length t) s))
                                    [None; None])
                ltac:(lia) ltac:(lia)) as [caps' Hpath].
    rewrite (star_not_slash (length s) rest (S (length rest)) [None; None] _
               (after_path t, caps')); [|lia|exact Hpath].
    exists rest. split; reflexivity.
  - destruct s as [|a s']; [reflexivity|].
    erewrite exec_from_after_start; [reflexivity|reflexivity|cbn; lia].
Qed.

(** The test of the click listener on the host is [host_fully_matched]. *)
Lemma host_is_valid_fully_matched (host : string) :
  match RegExp.exec config.ORIGIN_REGEXP host with
  | Some match_ => String.length (RegExp.matched match_) =? String.length host
  | None => false
  end = host_fully_matched host.
Proof.
  pose proof (exec_ORIGIN_REGEXP_matched host) as Hexec.
  unfold host_fully_matched.
  destruct (RegExp.exec config.ORIGIN_REGEXP host) as [match_|].
  - destruct Hexec as (rest & Hscheme & ->). rewrite Hscheme.
    rewrite of_chars_length, length_take, <- chars_length.
    pose proof (strip_scheme_length (JsString.chars host) rest Hscheme) as Hrest.
    pose proof (after_path_length (from_first_slash rest)) as Hpath.
    pose proof (from_first_slash_length rest) as Hslash.
    destruct (after_path (from_first_slash rest)) as [|c t] eqn:Hafter.
    + apply Nat.eqb_eq. cbn. lia.
    + apply Nat.eqb_neq. cbn in *. lia.
  - now rewrite Hexec.
Qed.

(** ** The click on the add-instance button *)

Lemma on_add_instance_click_run (host name : string) (this : Options.t) :
  Options.on_add_instance_click host name this
  = if host_fully_matched host && negb (String.length name =? 0)
    then (Normal tt,
          Options.state_after (Options.addGerritInstance host name true) this,
          Options.effects_of (Options.addGerritInstance host name true) this
          ++ [SetValue "add-button-host" ""; SetValue "add-button-name" ""])
    else (Normal tt, this, status_effects "Incorrect instance values.").
Proof.
  unfold Options.on_add_instance_click.
  rewrite host_is_valid_fully_matched.
  destruct (host_fully_matched host && negb (String.length name =? 0));
    [|reflexivity].
  pose proof (addGerritInstance_returns host name true this) as Hreturns.
  rewrite (bind_normal _ _ this _ tt _
             ltac:(rewrite run_triple, Hreturns; reflexivity)).
  reflexivity.
Qed.

Lemma length_0_empty (s : string) : (String.length s =? 0) = true <-> s = "".
Proof.
  destruct s; cbn; split; intros H; try reflexivity; discriminate.
Qed.

(** X9: the click listener of [add-button] adds an instance exactly when
    the name is not empty and the origin pattern covers the host to its
    end, that is, the host is a scheme [http://] or [https://], then
    anything without a slash, then only segments made of a slash and at
    least one other character. It then calls [addGerritInstance] with
    [enabled = true] and clears both fields; otherwise the status text is
    "Incorrect instance values." and nothing else happens. *)
Theorem on_add_instance_click_cases (host name : string) (this : Options.t) :
  (host_fully_matched host = true -> name <> "" ->
   Options.on_add_instance_click host name this
   = (Normal tt,
      Options.state_after (Options.addGerritInstance host name true) this,
      Options.effects_of (Options.addGerritInstance host name true) this
      ++ [SetValue "add-button-host" ""; SetValue "add-button-name" ""]))
  /\ (host_fully_matched host = false \/ name = "" ->
      Options.on_add_instance_click host name this
      = (Normal tt, this, status_effects "Incorrect instance values.")).
Proof.
  rewrite on_add_instance_click_run. split.
  - intros -> Hname.
    destruct (String.length name =? 0) eqn:Hlen; [|reflexivity].
    apply length_0_empty in Hlen. contradiction.
  - intros [->| ->]; [reflexivity|]. now rewrite andb_false_r.
Qed.

Lemma on_add_instance_click_cases_witness :
  (host_fully_matched "https://a.example/r/x" = true /\ "A" <> ""
   /\ Options.instances
        (Options.state_after
           (Options.on_add_instance_click "https://a.example/r/x" "A")
           Options.constructor)
      = [ {| GerritInstance.host := "https://a.example/r/x";
             GerritInstance.name := "A";
             GerritInstance.enabled := true |} ])
  /\ ((host_fully_matched "https://a.example//x" = false \/ "A" = "")
      /\ Options.on_add_instance_click "https://a.example//x" "A"
                                       Options.constructor
         = (Normal tt, Options.constructor,
            status_effects "Incorrect instance values.")).
Proof.
  assert (Hname : "A" <> "") by discriminate.
  split.
  - split; [reflexivity|]. split; [exact Hname|].
    unfold Options.state_after.
    rewrite (proj1 (on_add_instance_click_cases "https://a.example/r/x" "A"
                      Options.constructor) eq_refl Hname).
    reflexivity.
  - split; [left; reflexivity|].
    exact (proj2 (on_add_instance_click_cases "https://a.example//x" "A"
                    Options.constructor) (or_introl eq_refl)).
Defined.

Lemma chars_append (s1 s2 : string) :
  JsString.chars (s1 +:+ s2) = JsString.chars s1 ++ JsString.chars s2.
Proof.
  unfold JsString.chars. induction s1 as [|c s1 IH]; [reflexivity|].
  change (c :: String.list_ascii_of_string (s1 +:+ s2)
          = c :: (String.list_ascii_of_string s1
                  ++ String.list_ascii_of_string s2)).
  now rewrite IH.
Qed.

Lemma strip_scheme_of (scheme rest : string) :
  scheme = "http://" \/ scheme = "https://" ->
  strip_scheme (JsString.chars (scheme +:+ rest)) = Some (JsString.chars rest).
Proof. intros [-> | ->]; reflexivity. Qed.

Lemma from_first_slash_no_slash (s : list ascii) :
  ~ In "/"%char s -> from_first_slash s = [].
Proof.
  induction s as [|a s IH]; intros Hno; [reflexivity|]. cbn.
  destruct (Ascii.eqb_spec a "/") as [->|Hne].
  - exfalso. apply Hno. now left.
  - apply IH. intros Hin. apply Hno. now right.
Qed.

Lemma from_first_slash_last (s : list ascii) :
  last s = Some "/"%char ->
  from_first_slash s <> [] /\ last (from_first_slash s) = Some "/"%char.
Proof.
  induction s as [|a s IH]; intros Hlast; [discriminate|]. cbn.
  destruct (Ascii.eqb_spec a "/") as [->|Hne].
  - split; [discriminate|exact Hlast].
  - apply IH. destruct s as [|b s']; [cbn in Hlast; congruence|exact Hlast].
Qed.

Lemma in_segment_last (n : nat) :
  forall s, length s <= n -> last s = Some "/"%char -> in_segment s <> [].
Proof.
  induction n as [|n IH]; intros s Hlen Hlast.
  - destruct s; [discriminate|cbn in Hlen; lia].
  - destruct s as [|c s']; [discriminate|]. cbn [in_segment].
    destruct (Ascii.eqb_spec c "/") as [->|Hc].
    + destruct s' as [|c2 s'']; [discriminate|].
      destruct (Ascii.eqb_spec c2 "/") as [->|Hc2]; [discriminate|].
      cbn in Hlen. apply IH; [lia|].
      destruct s'' as [|c3 s3]; [cbn in Hlast; congruence|exact Hlast].
    + cbn in Hlen. apply IH; [lia|].
      destruct s' as [|c2 s'']; [cbn in Hlast; congruence|exact Hlast].
Qed.

Lemma after_path_last (s : list ascii) :
  s <> [] -> last s = Some "/"%char -> after_path s <> [].
Proof.
  intros Hne Hlast. unfold after_path.
  destruct s as [|c [|c2 s'']]; try congruence; try discriminate.
  destruct (Ascii.eqb c "/" && negb (Ascii.eqb c2 "/")) eqn:Hcond;
    [|discriminate].
  apply andb_prop in Hcond as [_ Hc2]. apply negb_true_iff in Hc2.
  apply (in_segment_last (length s'')); [lia|].
  destruct s'' as [|c3 s3]; [|exact Hlast].
  cbn in Hlast. injection Hlast as ->. discriminate.
Qed.

(** X10: two uses of the instance form. A host that is a scheme followed
    by characters without any slash is accepted (with a name that is not
    empty). A host that goes on after the scheme and ends in a slash, like
    "https://a.example/", is refused with "Incorrect instance values." and
    nothing is added. *)
Theorem instance_form_slashes (scheme rest name : string) (this : Options.t) :
  scheme = "http://" \/ scheme = "https://" ->
  (~ In "/"%char (JsString.chars rest) -> name <> "" ->
   Options.state_after (Options.on_add_instance_click (scheme +:+ rest) name) this
   = Options.state_after
       (Options.addGerritInstance (scheme +:+ rest) name true) this)
  /\ Options.on_add_instance_click (scheme +:+ rest +:+ "/") name this
     = (Normal tt, this, status_effects "Incorrect instance values.").
Proof.
  intros Hscheme. split.
  - intros Hno Hname. unfold Options.state_after at 1.
    rewrite on_add_instance_click_run.
    unfold host_fully_matched.
    rewrite (strip_scheme_of scheme rest Hscheme),
      (from_first_slash_no_slash _ Hno). cbn [after_path andb].
    destruct (String.length name =? 0) eqn:Hlen; [|reflexivity].
    apply length_0_empty in Hlen. contradiction.
  - rewrite on_add_instance_click_run. unfold host_fully_matched.
    rewrite (strip_scheme_of scheme (rest +:+ "/") Hscheme), chars_append.
    assert (Hlast : last (JsString.chars rest ++ JsString.chars "/")
                    = Some "/"%char) by apply last_snoc.
    destruct (from_first_slash_last _ Hlast) as [Hne Hlast'].
    pose proof (after_path_last _ Hne Hlast') as Hafter.
    destruct (after_path _); [contradiction|reflexivity].
Qed.

Lemma instance_form_slashes_witness :
  ("https://" = "http://" \/ "https://" = "https://")
  /\ (~ In "/"%char (JsString.chars "a.example") /\ "A" <> ""
      /\ Options.state_after
           (Options.on_add_instance_click ("https://" +:+ "a.example") "A")
           Options.constructor
         = Options.state_after
             (Options.addGerritInstance ("https://" +:+ "a.example") "A" true)
             Options.constructor)
  /\ Options.on_add_instance_click ("https://" +:+ "a.example" +:+ "/") "A"
                                   Options.constructor
     = (Normal tt, Options.constructor,
        status_effects "Incorrect instance values.").
Proof.
  assert (Hno : ~ In "/"%char (JsString.chars "a.example")).
  { cbn. intros H. repeat (destruct H as [H|H]; [discriminate|]). exact H. }
  assert (Hname : "A" <> "") by discriminate.
  pose proof (instance_form_slashes "https://" "a.example" "A"
                Options.constructor (or_intror eq_refl)) as [Hadd Hrefuse].
  split; [right; reflexivity|]. split; [|exact Hrefuse].
  exact (conj Hno (conj Hname (Hadd Hno Hname))).
Defined.

(** ** Rows and checkboxes *)

Lemma alter_middle {A : Type} (f : A -> A) (l : list A) (i : nat) (x : A) :
  l !! i = Some x -> alter f i l = take i l ++ f x :: drop (S i) l.
Proof.
  revert i. induction l as [|y l IH]; intros i Hlookup; [discriminate|].
  destruct i as [|i].
  - injection Hlookup as ->. reflexivity.
  - change (alter f (S i) (y :: l)) with (y :: alter f i l).
    cbn in Hlookup. rewrite (IH i Hlookup). reflexivity.
Qed.

Lemma find_host_snoc (host : string) (l : list GerritInstance.t)
      (x : GerritInstance.t) :
  host ∉ GerritInstance.host <$> l -> GerritInstance.host x = host ->
  list_find (fun instance => GerritInstance.host instance = host) (l ++ [x])
  = Some (length l, x).
Proof.
  intros Hnew Hx. induction l as [|y l IH]; cbn.
  - now rewrite decide_True by exact Hx.
  - rewrite fmap_cons, not_elem_of_cons in Hnew. destruct Hnew as [Hy Hnew].
    rewrite decide_False by congruence.
    now rewrite (IH Hnew).
Qed.

(** X11: a new host gets a row whose checkbox has the index of the new
    instance in its id, ["instance-" + index], and whose labels point to
    that id; adding the same host again checks that very checkbox and
    does nothing else to the page (the labels of the row keep the first
    name); and the change listener registered for the row sets [enabled]
    of that very instance, leaving its host and name and all other
    instances alone. *)
Theorem new_row_is_wired (host name : string) (enabled : bool)
        (this : Options.t) :
  ~ In host (hosts this) ->
  let index := length (Options.instances this) in
  let id := "instance-" +:+ pretty index in
  let this' :=
    Options.state_after (Options.addGerritInstance host name enabled) this in
  Options.effects_of (Options.addGerritInstance host name enabled) this
  = [AppendInstanceRow name host id enabled;
     AddEventListener id "change" (checkbox_change index);
     SetLabelFor name id; SetLabelFor host id]
  /\ (forall name2 enabled2,
         Options.effects_of (Options.addGerritInstance host name2 enabled2) this'
         = [SetChecked id "true"])
  /\ (forall checked,
         Options.instances
           (Options.state_after (Options.on_checkbox_change index checked) this')
         = Options.instances this
           ++ [ {| GerritInstance.host := host;
                   GerritInstance.name := name;
                   GerritInstance.enabled := checked |} ]).
Proof.
  intros Hnew index id this'. subst index id this'.
  rewrite <- list_elem_of_In in Hnew.
  unfold Options.state_after, Options.effects_of, Options.instances.
  rewrite (addGerritInstance_new host name enabled this Hnew). cbn [fst snd].
  split; [reflexivity|]. split.
  - intros name2 enabled2.
    erewrite addGerritInstance_found; [reflexivity|].
    cbn [Options.push_instance Options.instances_].
    now apply find_host_snoc.
  - intros checked. cbn.
    rewrite (alter_middle _ _ _
               {| GerritInstance.host := host;
                  GerritInstance.name := name;
                  GerritInstance.enabled := enabled |}).
    + rewrite take_app_length, drop_ge by (rewrite length_app; cbn; lia).
      reflexivity.
    + now rewrite lookup_app_r, Nat.sub_diag by lia.
Qed.

Lemma new_row_is_wired_witness :
  ~ In "https://b.example" (hosts unmatched_enabled)
  /\ Options.effects_of
       (Options.addGerritInstance "https://b.example" "B" false)
       unmatched_enabled
     = [AppendInstanceRow "B" "https://b.example" "instance-2" false;
        AddEventListener "instance-2" "change" (checkbox_change 2);
        SetLabelFor "B" "instance-2";
        SetLabelFor "https://b.example" "instance-2"].
Proof.
  assert (Hnew : ~ In "https://b.example" (hosts unmatched_enabled)).
  { cbn. intros H. repeat (destruct H as [H|H]; [discriminate|]). exact H. }
  split; [exact Hnew|].
  exact (proj1 (new_row_is_wired "https://b.example" "B" false
                  unmatched_enabled Hnew)).
Defined.

Lemma allowed_origins_cons (instance : GerritInstance.t)
      (rest : list GerritInstance.t) :
  Options.allowed_origins (instance :: rest)
  = origin_entries instance ++ Options.allowed_origins rest.
Proof. now rewrite !allowed_origins_entries. Qed.

(** X12: the checkbox of a row decides whether its instance is in the
    next permission request: after the change listener of row [i] has run
    with the box unchecked, [saveInstanceOptions] requests what the other
    instances give; with the box checked, the instance gives its origin
    followed by "/*" in its place, or nothing if its host has no origin. *)
Theorem checkbox_decides_request (env : Persistence) (this : Options.t)
        (i : nat) (instance : GerritInstance.t) :
  Options.instances this !! i = Some instance ->
  let before := Options.allowed_origins (take i (Options.instances this)) in
  let after := Options.allowed_origins (drop (S i) (Options.instances this)) in
  allowed_origins_requests
    (Options.effects_of (Options.saveInstanceOptions env)
       (Options.state_after (Options.on_checkbox_change i false) this))
  = [before ++ after]
  /\ allowed_origins_requests
       (Options.effects_of (Options.saveInstanceOptions env)
          (Options.state_after (Options.on_checkbox_change i true) this))
     = [before
        ++ match origin_of (GerritInstance.host instance) with
           | Some origin => [origin +:+ "/*"]
           | None => []
           end
        ++ after].
Proof.
  intros Hlookup before after. subst before after.
  unfold Options.instances in *.
  rewrite !allowed_origins_request.
  unfold Options.state_after. cbn [Options.on_checkbox_change Options.modify
    fst snd Options.update_instance Options.instances_].
  rewrite !(alter_middle _ _ _ _ Hlookup).
  rewrite !allowed_origins_app, !allowed_origins_cons.
  rewrite !origin_entries_origin_of. cbn [GerritInstance.enabled
    GerritInstance.host]. split; reflexivity.
Qed.

Lemma checkbox_decides_request_witness :
  Options.instances shared_origin !! 0
  = Some {| GerritInstance.host := "https://a.example/x";
            GerritInstance.name := "X";
            GerritInstance.enabled := true |}
  /\ allowed_origins_requests
       (Options.effects_of (Options.saveInstanceOptions storage_ok)
          (Options.state_after (Options.on_checkbox_change 0 false)
                               shared_origin))
     = [Options.allowed_origins (take 0 (Options.instances shared_origin))
        ++ Options.allowed_origins (drop 1 (Options.instances shared_origin))].
Proof.
  split; [reflexivity|].
  exact (proj1 (checkbox_decides_request storage_ok shared_origin 0 _ eq_refl)).
Defined.

(** ** Witnesses of earlier statements *)

Lemma reachable_unique_witness :
  reachable storage_ok
    (run storage_ok
         [LoadSettles; AddGroupClick "team-x"; AddGroupClick "team-y"]
         (Options.state_after Options.onLoaded Options.constructor))
  /\ unique
       (run storage_ok
            [LoadSettles; AddGroupClick "team-x"; AddGroupClick "team-y"]
            (Options.state_after Options.onLoaded Options.constructor)).
Proof.
  assert (Hreachable : reachable storage_ok
    (run storage_ok
         [LoadSettles; AddGroupClick "team-x"; AddGroupClick "team-y"]
         (Options.state_after Options.onLoaded Options.constructor)))
    by (eexists; reflexivity).
  exact (conj Hreachable (reachable_unique storage_ok _ Hreachable)).
Defined.

(** ** The form and the permission request agree *)

Lemma chars_of_chars (l : list ascii) : JsString.chars (JsString.of_chars l) = l.
Proof.
  unfold JsString.chars, JsString.of_chars.
  apply String.list_ascii_of_string_of_list_ascii.
Qed.

(** X13: a host that the instance form accepts always has an origin, and
    the origin is the beginning of the host; so an instance added through
    the form gives, while it is enabled, exactly one entry of the
    permission request: that origin followed by "/*". *)
Theorem accepted_host_has_origin (host name : string) :
  host_fully_matched host = true ->
  exists origin,
    origin_of host = Some origin
    /\ JsString.chars origin `prefix_of` JsString.chars host
    /\ Options.allowed_origins
         [ {| GerritInstance.host := host;
              GerritInstance.name := name;
              GerritInstance.enabled := true |} ]
       = [origin +:+ "/*"].
Proof.
  intros Hmatched. unfold host_fully_matched in Hmatched.
  pose proof (exec_ORIGIN_REGEXP host) as Hexec.
  unfold origin_of.
  destruct (RegExp.exec config.ORIGIN_REGEXP host) as [match_|] eqn:Hmatch.
  - destruct Hexec as (origin & Hscheme & Hgroup).
    exists origin. split; [exact Hgroup|]. split.
    + unfold scheme_and_authority in Hscheme.
      destruct (strip_scheme (JsString.chars host)) as [rest|]; [|discriminate].
      injection Hscheme as <-. rewrite chars_of_chars.
      eexists. symmetry. apply take_drop.
    + rewrite allowed_origins_cons. unfold origin_entries.
      cbn [GerritInstance.enabled GerritInstance.host].
      now rewrite Hmatch, Hgroup.
  - unfold scheme_and_authority in Hexec.
    destruct (strip_scheme (JsString.chars host)); discriminate.
Qed.

Lemma accepted_host_has_origin_witness :
  host_fully_matched "https://a.example/r/x" = true
  /\ exists origin,
       origin_of "https://a.example/r/x" = Some origin
       /\ JsString.chars origin `prefix_of` JsString.chars "https://a.example/r/x"
       /\ Options.allowed_origins
            [ {| GerritInstance.host := "https://a.example/r/x";
                 GerritInstance.name := "A";
                 GerritInstance.enabled := true |} ]
          = [origin +:+ "/*"].
Proof.
  split; [reflexivity|].
  exact (accepted_host_has_origin "https://a.example/r/x" "A" eq_refl).
Defined.
